(** * gdb_util/instrument_srs.py: instrumenting std::sort under gdb

    A shallow embedding of the [GuiThread] class and of the breakpoint
    command scripts of [gdb_util/instrument_srs.py], and of the debugger
    commands of [my/tt.py] and [my/tools.py], followed by the properties
    of the container model, the message queue, the breakpoint
    choreography and the commands.

    Conventions of the embedding:
    - a [gdb.Value] pointer is its address, a [Z]; pointer arithmetic is
      gdb's: [p + n] advances by [n] elements, [p - q] is the address
      difference divided (C division, truncating) by the element size,
      comparisons compare addresses.  The element size
      [sizeof(int_wrapper_t)] is the section variable [stride]; the
      vector lies inside the address space, so no address computed from
      it wraps around;
    - a Python list is a [list], indexed the Python way (negative indices
      count from the end, anything else out of range raises [IndexError]);
    - the dict [temp_elements] is a [gmap] keyed by strings;
    - [queue.Queue] is the list of its pending items, oldest first;
    - a method of [GuiThread] is a function of the object's state that
      either returns or raises, in both cases with the state it left
      behind (assignments made before a [raise] are not undone);
    - the Qt calls ([QPropertyAnimation], the scene, the view) act on the
      rendering engine only and never on [elements], [temp_elements] or
      [messages]; they are not part of the state. *)

From Stdlib Require Import ZArith Lia HexString.
From stdpp Require Import base option list gmap strings pretty.

Local Open Scope Z_scope.

(** ** Python lists *)

Module PyList.

(** The position designated by index [i] in a list of length [len]:
    [0 <= i < len] is itself, [-len <= i < 0] counts from the end, any
    other index is out of range. *)
Definition position (len : nat) (i : Z) : option nat :=
  if bool_decide (0 <= i < Z.of_nat len) then Some (Z.to_nat i)
  else if bool_decide (- Z.of_nat len <= i < 0) then Some (Z.to_nat (Z.of_nat len + i))
  else None.

(** [l[i]] as an expression; [None] stands for [IndexError]. *)
Definition getitem {A} (l : list A) (i : Z) : option A :=
  n ← position (length l) i; l !! n.

(** [l[i] = x]; [None] stands for [IndexError]. *)
Definition setitem {A} (l : list A) (i : Z) (x : A) : option (list A) :=
  n ← position (length l) i; Some (<[n:=x]> l).

End PyList.

(** ** Data *)

(** Python's [len] of a dict (the record field [size] below takes over
    the short name). *)
Abbreviation len := stdpp.base.size (only parsing).

(** [QPointF(x, y)] with the integer coordinates the module builds. *)
Abbreviation QPointF := (Z * Z)%type (only parsing).

(** An [AnimProxy] around the [Element(idx, value)] made in [run]: the
    index it was created at tells two proxies apart, also when they show
    the same value. *)
Record AnimProxy := { elt_idx : Z; elt_value : Z }.

#[global] Instance AnimProxy_eq_dec : EqDecision AnimProxy.
Proof. solve_decision. Defined.

(** The tuples [(tp, src, dst)] that [_send_message] puts on the queue.
    [show_swap] and [show_move] are its only callers, with these four
    literal values of [tp] and these payload types. *)
Inductive message :=
| Msg_swap (a b : Z)
| Msg_move (src dst : Z)
| Msg_move_from_temp (src : string) (dst : Z)
| Msg_move_to_temp (src : Z) (dst : string).

#[global] Instance message_eq_dec : EqDecision message.
Proof. solve_decision. Defined.

(** The attributes of a [GuiThread] object.  [None] in [elements] and in
    the second component of a [temp_elements] entry is Python's [None]. *)
Record GuiThread := {
  base_addr : Z;
  size : Z;
  messages : list message;
  values : list Z;
  elements : list (option AnimProxy);
  temp_elements : gmap string (QPointF * option AnimProxy)
}.

Definition set_messages (q : list message) (self : GuiThread) : GuiThread :=
  {| base_addr := base_addr self; size := size self; messages := q;
     values := values self; elements := elements self;
     temp_elements := temp_elements self |}.

Definition set_elements (l : list (option AnimProxy)) (self : GuiThread) : GuiThread :=
  {| base_addr := base_addr self; size := size self; messages := messages self;
     values := values self; elements := l;
     temp_elements := temp_elements self |}.

Definition set_temp_elements (t : gmap string (QPointF * option AnimProxy))
    (self : GuiThread) : GuiThread :=
  {| base_addr := base_addr self; size := size self; messages := messages self;
     values := values self; elements := elements self;
     temp_elements := t |}.

(** ** Methods: state and exceptions *)

Inductive exn :=
| IndexError
| KeyError (key : string)
| AttributeError
| RuntimeError (msg : string).

#[global] Instance exn_eq_dec : EqDecision exn.
Proof. solve_decision. Defined.

Inductive outcome (A : Type) :=
| Returns (v : A) (self : GuiThread)
| Raises (e : exn) (self : GuiThread).
Arguments Returns {A} v self.
Arguments Raises {A} e self.

Definition method (A : Type) : Type := GuiThread → outcome A.

#[global] Instance method_ret : MRet method := λ A v self, Returns v self.
#[global] Instance method_bind : MBind method := λ A B k m self,
  match m self with
  | Returns v self' => k v self'
  | Raises e self' => Raises e self'
  end.

Definition raise {A} (e : exn) : method A := λ self, Raises e self.
Definition attr {A} (f : GuiThread → A) : method A := λ self, Returns (f self) self.
Definition assign (f : GuiThread → GuiThread) : method unit := λ self, Returns () (f self).

(** [self.elements[i]] *)
Definition elements_get (i : Z) : method (option AnimProxy) :=
  l ← attr elements;
  match PyList.getitem l i with
  | Some e => mret e
  | None => raise IndexError
  end.

(** [self.elements[i] = e] *)
Definition elements_set (i : Z) (e : option AnimProxy) : method unit :=
  l ← attr elements;
  match PyList.setitem l i e with
  | Some l' => assign (set_elements l')
  | None => raise IndexError
  end.

(** [self.temp_elements[k]] *)
Definition temp_elements_get (k : string) : method (QPointF * option AnimProxy) :=
  t ← attr temp_elements;
  match t !! k with
  | Some v => mret v
  | None => raise (KeyError k)
  end.

(** [self.temp_elements[k] = v] *)
Definition temp_elements_set (k : string) (v : QPointF * option AnimProxy) : method unit :=
  t ← attr temp_elements;
  assign (set_temp_elements (<[k:=v]> t)).

(** ** The [GuiThread] class *)

Section GuiThread.

(** [sizeof(int_wrapper_t)], the size of one element of the vector. *)
Variable stride : positive.

(** gdb: pointer plus integer. *)
Definition ptr_add (p n : Z) : Z := p + n * Z.pos stride.

(** gdb: pointer minus pointer (C division of the address difference). *)
Definition ptr_diff (p q : Z) : Z := (p - q) ÷ Z.pos stride.

(** [str] of a gdb pointer value: its address in hexadecimal. *)
Definition str (p : Z) : string := HexString.of_Z p.

(** [GuiThread.__init__(base_addr, size)]; [deref] reads the [int] at
    an address of the traced process. *)
Definition __init__ (deref : Z → Z) (base size : Z) : GuiThread :=
  {| base_addr := base; size := size; messages := [];
     values := (λ idx, deref (ptr_add base idx)) <$> seqZ 0 size;
     elements := []; temp_elements := ∅ |}.

(** The part of [run] that builds the model (source lines 231-243):
    one proxy per value, at its index, and an empty [temp_elements]. *)
Definition run (self : GuiThread) : GuiThread :=
  set_temp_elements ∅
    (set_elements
       (imap (λ idx v, Some {| elt_idx := Z.of_nat idx; elt_value := v |}) (values self))
       self).

(** *** Front end: the gdb thread *)

Definition _send_message (m : message) : method unit :=
  q ← attr messages; assign (set_messages (q ++ [m])).

(** [show_swap(a, b)]; [a] and [b] stand for [a.address], [b.address]. *)
Definition show_swap (a b : Z) : method unit :=
  base ← attr base_addr;
  let a_idx := ptr_diff a base in
  let b_idx := ptr_diff b base in
  _send_message (Msg_swap a_idx b_idx).

(** The test [(p >= self.base_addr) and (p < (self.base_addr + self.size))]. *)
Definition in_vec (self : GuiThread) (p : Z) : bool :=
  bool_decide (p >= base_addr self) && bool_decide (p < ptr_add (base_addr self) (size self)).

(** [show_move(a, b)]; [a] is the pointer [this], [b] stands for
    [b.address]. *)
Definition show_move (a b : Z) : method unit :=
  self ← attr id;
  let a_in_vec := in_vec self a in
  let b_in_vec := in_vec self b in
  if a_in_vec && b_in_vec then
    let a_idx := ptr_diff a (base_addr self) in
    let b_idx := ptr_diff b (base_addr self) in
    _send_message (Msg_move b_idx a_idx)
  else if a_in_vec then
    let a_idx := ptr_diff a (base_addr self) in
    _send_message (Msg_move_from_temp (str b) a_idx)
  else if b_in_vec then
    let b_idx := ptr_diff b (base_addr self) in
    _send_message (Msg_move_to_temp b_idx (str a))
  else
    raise (RuntimeError "saw an unexpected move from temporary to temporary").

(** *** Back end: the GUI thread *)

(** [_perform_move(a, pos)] only builds and starts an animation; with
    [a = None] Qt gets an animation without a target and nothing is
    raised. *)
Definition _perform_move (a : option AnimProxy) (pos : QPointF) : method unit :=
  mret ().

(** Reading [elt.pos]: [None] has no such attribute. *)
Definition pos_of (elt : option AnimProxy) : method unit :=
  match elt with
  | Some _ => mret ()
  | None => raise AttributeError
  end.

Definition _perform_swap (a b : Z) : method unit :=
  elt_a ← elements_get a;
  elt_b ← elements_get b;
  pos_of elt_a;;
  pos_of elt_b;;
  elements_set a elt_b;;
  elements_set b elt_a.

(** The [if op is ... elif ...] chain of [_check_for_messages].  The
    points are pairs of integers: the conversion of a coordinate to a C
    double when Qt builds the [QPointF], which PyQt refuses for an int
    out of the range of a double, is not modelled (see [fits_double]). *)
Definition dispatch (m : message) : method unit :=
  match m with
  | Msg_swap a b =>
      _perform_swap a b
  | Msg_move a b =>
      e ← elements_get a;
      elements_set b e;;
      elements_set a None;;
      e' ← elements_get b;
      _perform_move e' (20 + 20 * b, 20)
  | Msg_move_from_temp a b =>
      '(pos, temp_elt) ← temp_elements_get a;
      temp_elements_set a (pos, None);;
      _perform_move temp_elt (20 + 20 * b, 20);;
      elements_set b temp_elt
  | Msg_move_to_temp a b =>
      t ← attr temp_elements;
      pos ← match t !! b with
            | Some _ => '(pos, temp_elt) ← temp_elements_get b; mret pos
            | None => mret (20 + 20 * Z.of_nat (len t), 60)
            end;
      e ← elements_get a;
      _perform_move e pos;;
      e ← elements_get a;
      temp_elements_set b (pos, e);;
      elements_set a None
  end.

(** One tick of [cmd_poll_timer]. *)
Definition _check_for_messages : method unit :=
  q ← attr messages;
  match q with
  | [] => mret ()
  | m :: rest => assign (set_messages rest);; dispatch m
  end.

End GuiThread.

(** ** The breakpoints and their command scripts *)

(** The four [gdb.Breakpoint] objects of the module. *)
Inductive site := Swap_bp | Move_bp | Move_assign_bp | Sort_bp.

#[global] Instance site_eq_dec : EqDecision site.
Proof. solve_decision. Defined.

(** The gdb CLI commands that the scripts give to a [FinishBreakpoint]. *)
Inductive command := Enable (bp : site) | Disable (bp : site) | Continue.

(** A pending [gdb.FinishBreakpoint]: it fires once, when the frame it
    was created in returns, and runs its commands. *)
Record FinishBreakpoint := { fbp_commands : list command }.

(** The debugging session as the module sees it: the [enabled] flag of
    each breakpoint, the finish breakpoints not yet reached (innermost
    frame first) and the module global [gui]. *)
Record session := {
  swap_bp_enabled : bool;
  move_bp_enabled : bool;
  move_assign_bp_enabled : bool;
  sort_bp_enabled : bool;
  finish_bps : list FinishBreakpoint;
  gui : option GuiThread
}.

Definition set_enabled (bp : site) (v : bool) (s : session) : session :=
  {| swap_bp_enabled := if decide (bp = Swap_bp) then v else swap_bp_enabled s;
     move_bp_enabled := if decide (bp = Move_bp) then v else move_bp_enabled s;
     move_assign_bp_enabled :=
       if decide (bp = Move_assign_bp) then v else move_assign_bp_enabled s;
     sort_bp_enabled := if decide (bp = Sort_bp) then v else sort_bp_enabled s;
     finish_bps := finish_bps s; gui := gui s |}.

Definition set_finish_bps (l : list FinishBreakpoint) (s : session) : session :=
  {| swap_bp_enabled := swap_bp_enabled s; move_bp_enabled := move_bp_enabled s;
     move_assign_bp_enabled := move_assign_bp_enabled s;
     sort_bp_enabled := sort_bp_enabled s; finish_bps := l; gui := gui s |}.

Definition set_gui (g : GuiThread) (s : session) : session :=
  {| swap_bp_enabled := swap_bp_enabled s; move_bp_enabled := move_bp_enabled s;
     move_assign_bp_enabled := move_assign_bp_enabled s;
     sort_bp_enabled := sort_bp_enabled s; finish_bps := finish_bps s;
     gui := Some g |}.

(** What the traced program does after a breakpoint's commands: it runs
    on ([Resumed], the script reached its [c]), it stays stopped at the
    prompt ([Stopped], the script ended without [c]), or a [py] line
    raised and gdb abandoned the rest of the script ([Failed]). *)
Inductive status := Resumed | Stopped | Failed (e : exn).

#[global] Instance status_eq_dec : EqDecision status.
Proof. solve_decision. Defined.

(** The places where the traced program can meet a breakpoint: the entry
    of one of the four functions, with the operands the script reads from
    the frame, or the return of the frame of the innermost pending
    finish breakpoint. *)
Inductive location :=
| At_swap (a b : Z)
| At_move (this other : Z)
| At_move_assign (this other : Z)
| At_sort (start finish : Z) (deref : Z → Z)
| At_return.

Section Breakpoints.

Variable stride : positive.

(** The state of the module once loaded (source lines 262-279). *)
Definition loaded : session :=
  {| swap_bp_enabled := false; move_bp_enabled := false;
     move_assign_bp_enabled := false; sort_bp_enabled := true;
     finish_bps := []; gui := None |}.

(** A CLI command list, up to its first [c]. *)
Fixpoint exec (cmds : list command) (s : session) : session * status :=
  match cmds with
  | [] => (s, Stopped)
  | Enable bp :: rest => exec rest (set_enabled bp true s)
  | Disable bp :: rest => exec rest (set_enabled bp false s)
  | Continue :: _ => (s, Resumed)
  end.

(** A [py gdb_util.instrument_srs.gui.<method>(...)] line: an error
    ends the script, otherwise it goes on with [k]. *)
Definition py_gui (m : method unit) (k : session → session * status)
    (s : session) : session * status :=
  match gui s with
  | None => (s, Failed AttributeError)
  | Some g =>
      match m g with
      | Returns _ g' => k (set_gui g' s)
      | Raises e g' => (set_gui g' s, Failed e)
      end
  end.

(** [sort_bp.commands] *)
Definition sort_bp_commands (start finish : Z) (deref : Z → Z)
    (s : session) : session * status :=
  let s := set_finish_bps ({| fbp_commands := [] |} :: finish_bps s) s in
  let s := set_gui (__init__ stride deref start (ptr_diff stride finish start)) s in
  py_gui (assign run)
    (exec [Enable Swap_bp; Enable Move_bp; Enable Move_assign_bp; Continue]) s.

(** [swap_bp.commands] *)
Definition swap_bp_commands (a b : Z) (s : session) : session * status :=
  py_gui (show_swap stride a b)
    (λ s,
       let s := set_enabled Move_bp false s in
       let s := set_enabled Move_assign_bp false s in
       let fbp := {| fbp_commands := [Enable Move_bp; Enable Move_assign_bp; Continue] |} in
       let s := set_finish_bps (fbp :: finish_bps s) s in
       (s, Resumed)) s.

(** [move_commands], shared by [move_bp] and [move_assign_bp]. *)
Definition move_commands (this other : Z) (s : session) : session * status :=
  py_gui (show_move stride this other) (λ s, (s, Resumed)) s.

(** The traced program reaches [l]: an enabled breakpoint there runs
    its commands, a disabled one lets the program through. *)
Definition reach (l : location) (s : session) : session * status :=
  match l with
  | At_swap a b =>
      if swap_bp_enabled s then swap_bp_commands a b s else (s, Resumed)
  | At_move this other =>
      if move_bp_enabled s then move_commands this other s else (s, Resumed)
  | At_move_assign this other =>
      if move_assign_bp_enabled s then move_commands this other s else (s, Resumed)
  | At_sort start finish deref =>
      if sort_bp_enabled s then sort_bp_commands start finish deref s else (s, Resumed)
  | At_return =>
      match finish_bps s with
      | [] => (s, Resumed)
      | fbp :: rest => exec (fbp_commands fbp) (set_finish_bps rest s)
      end
  end.

(** The traced program goes through the locations of [trace] for as
    long as it is resumed. *)
Fixpoint execute (trace : list location) (s : session) : session * status :=
  match trace with
  | [] => (s, Resumed)
  | l :: rest =>
      match reach l s with
      | (s', Resumed) => execute rest s'
      | stop => stop
      end
  end.

End Breakpoints.

(** ** Reading the container model *)

(** The slot that index [i] designates, when it designates one. *)
Definition slot (self : GuiThread) (i : Z) : option (option AnimProxy) :=
  PyList.getitem (elements self) i.

(** Slots that hold an element. *)
Definition live_slots (l : list (option AnimProxy)) : nat :=
  length (filter is_Some l).

(** Entries of [temp_elements] that hold an element. *)
Definition live_temps (t : gmap string (QPointF * option AnimProxy)) : nat :=
  len (filter (λ kv, is_Some kv.2.2) t).

(** Elements held by the model, in slots and in temporaries. *)
Definition held (self : GuiThread) : nat :=
  live_slots (elements self) + live_temps (temp_elements self).

(** A run of the back end over a list of messages, oldest first; it
    ends at the first message whose handling raises. *)
Fixpoint apply_all (ms : list message) : method unit :=
  match ms with
  | [] => mret ()
  | m :: rest => dispatch m;; apply_all rest
  end.

(** [n] ticks of the poll timer, up to the first one that raises. *)
Fixpoint poll (n : nat) : method unit :=
  match n with
  | O => mret ()
  | S n' => _check_for_messages;; poll n'
  end.

(** The message meets the model in the state its sender saw in the
    traced program: a swap exchanges two held elements; a move, from a
    slot or from a temporary, lands in a slot whose element has been
    moved away; a move to a temporary lands in a temporary that holds
    nothing. *)
Definition occupied (self : GuiThread) (i : Z) : bool :=
  match slot self i with Some (Some _) => true | _ => false end.

Definition vacant (self : GuiThread) (i : Z) : bool :=
  match slot self i with Some None => true | _ => false end.

Definition in_range (self : GuiThread) (i : Z) : bool :=
  bool_decide (is_Some (slot self i)).

Definition temp_vacant (self : GuiThread) (k : string) : bool :=
  match temp_elements self !! k with Some (_, Some _) => false | _ => true end.

Definition admissible (self : GuiThread) (m : message) : bool :=
  match m with
  | Msg_swap a b => occupied self a && occupied self b
  | Msg_move src dst => in_range self src && vacant self dst
  | Msg_move_from_temp src dst =>
      bool_decide (is_Some (temp_elements self !! src)) && vacant self dst
  | Msg_move_to_temp src dst => in_range self src && temp_vacant self dst
  end.

(** Every message of the run is admissible in the state it meets. *)
Fixpoint admissible_run (ms : list message) (self : GuiThread) : bool :=
  match ms with
  | [] => true
  | m :: rest =>
      admissible self m &&
      match dispatch m self with
      | Returns _ self' => admissible_run rest self'
      | Raises _ _ => false
      end
  end.

(** ** The spec's reading of the front end *)

(** The spec's view of [show_move]: a classifier applied to each address
    and a four-way case on the two results.  [classify] and [emit] are
    that reading; [show_move_classify] shows the method computes it. *)
Inductive classified := Slot (i : Z) | Token (t : string).

Section Classifier.

Variable stride : positive.

Definition classify (self : GuiThread) (addr : Z) : classified :=
  if in_vec stride self addr then Slot (ptr_diff stride addr (base_addr self))
  else Token (str addr).

Definition emit (dst src : classified) : method unit :=
  match dst, src with
  | Slot d, Slot s => _send_message (Msg_move s d)
  | Slot d, Token t => _send_message (Msg_move_from_temp t d)
  | Token t, Slot s => _send_message (Msg_move_to_temp s t)
  | Token _, Token _ =>
      raise (RuntimeError "saw an unexpected move from temporary to temporary")
  end.

End Classifier.

(** ** Bookkeeping for the proofs *)

(** What a slot, and what a [temp_elements] entry, counts for in [held]. *)
Definition weight (e : option AnimProxy) : nat :=
  match e with Some _ => 1%nat | None => 0%nat end.

Definition temp_weight (o : option (QPointF * option AnimProxy)) : nat :=
  match o with Some (_, Some _) => 1%nat | _ => 0%nat end.

(** The object a call leaves behind, whether it returned or raised. *)
Definition final {A} (o : outcome A) : GuiThread :=
  match o with Returns _ s | Raises _ s => s end.

Definition outcome_map {A} (f : GuiThread → GuiThread) (o : outcome A) : outcome A :=
  match o with
  | Returns v s => Returns v (f s)
  | Raises e s => Raises e (f s)
  end.

(** [m] neither reads nor writes the queue. *)
Definition queue_blind {A} (m : method A) : Prop :=
  ∀ q self, m (set_messages q self) = outcome_map (set_messages q) (m self).

(** [m] keeps [P], whether it returns or raises. *)
Definition keeps (P : GuiThread → Prop) {A} (m : method A) : Prop :=
  ∀ self, P self → P (final (m self)).

(** No entry for key [k] in [temp_elements]. *)
Definition absent (k : string) (self : GuiThread) : Prop :=
  temp_elements self !! k = None.

(** The values shown in the slots, in order. *)
Definition slot_values (self : GuiThread) : list (option Z) :=
  (λ e : option AnimProxy, elt_value <$> e) <$> elements self.

(** Hits of the move constructor or of the move assignment operator. *)
Definition is_move_hit (l : location) : bool :=
  match l with
  | At_move _ _ | At_move_assign _ _ => true
  | _ => false
  end.

(** ** A sample session

    The vector [3, 1, 4, 2] of 4-byte elements at address 4096. *)
Definition sample_memory (p : Z) : Z :=
  match (p - 4096) / 4 with 0 => 3 | 1 => 1 | 2 => 4 | 3 => 2 | _ => 0 end.

Definition sample : GuiThread := run (__init__ 4 sample_memory 4096 4).

Definition sample_session : session :=
  fst (reach 4 (At_sort 4096 4112 sample_memory) loaded).

(** ** The back end, case by case *)

(** What [dispatch] comes to in every case, exceptions included, with
    the object each case leaves behind ([dispatch_eq] is the proof). *)
Definition dispatch_result (m : message) (self : GuiThread) : outcome unit :=
  let l := elements self in
  let t := temp_elements self in
  let at_ i := PyList.position (length l) i in
  match m with
  | Msg_swap a b =>
      match at_ a, at_ b with
      | Some na, Some nb =>
          match l !! na, l !! nb with
          | Some (Some ea), Some (Some eb) =>
              Returns () (set_elements (<[nb:=Some ea]> (<[na:=Some eb]> l)) self)
          | _, _ => Raises AttributeError self
          end
      | _, _ => Raises IndexError self
      end
  | Msg_move a b =>
      match at_ a, at_ b with
      | Some na, Some nb =>
          Returns () (set_elements (<[na:=None]> (<[nb:=default None (l !! na)]> l)) self)
      | _, _ => Raises IndexError self
      end
  | Msg_move_from_temp k b =>
      match t !! k with
      | None => Raises (KeyError k) self
      | Some (pos, e) =>
          let self1 := set_temp_elements (<[k:=(pos, None)]> t) self in
          match at_ b with
          | Some nb => Returns () (set_elements (<[nb:=e]> l) self1)
          | None => Raises IndexError self1
          end
      end
  | Msg_move_to_temp a k =>
      match at_ a with
      | Some na =>
          let pos := match t !! k with
                     | Some (pos, _) => pos
                     | None => (20 + 20 * Z.of_nat (len t), 60)
                     end in
          Returns ()
            (set_elements (<[na:=None]> l)
               (set_temp_elements (<[k:=(pos, default None (l !! na))]> t) self))
      | None => Raises IndexError self
      end
  end.

(** [QPointF(x, y)] takes its coordinates as C doubles, and PyQt refuses
    a Python int too large for one; the pairs of the model cannot fail
    so.  An int of magnitude below [2^1023] always converts. *)
Definition fits_double (x : Z) : Prop := - 2 ^ 1023 < x < 2 ^ 1023.

(** The parts of the object that the back end never changes. *)
Definition same_shape (self0 self : GuiThread) : Prop :=
  length (elements self) = length (elements self0)
  ∧ base_addr self = base_addr self0
  ∧ size self = size self0
  ∧ values self = values self0.

(** Token [k] has an entry, at position [pos]. *)
Definition placed (k : string) (pos : QPointF) (self : GuiThread) : Prop :=
  ∃ e, temp_elements self !! k = Some (pos, e).

(** Every entry sits at one of the first [len t] places of the row of
    temporaries, and no two entries at the same one. *)
Definition temp_inv (t : gmap string (QPointF * option AnimProxy)) : Prop :=
  ∀ k pos e, t !! k = Some (pos, e) →
    (∃ i : nat, (i < len t)%nat ∧ pos = (20 + 20 * Z.of_nat i, 60))
    ∧ ∀ k' e', t !! k' = Some (pos, e') → k' = k.

(** ** Reading the breakpoint scripts *)

Definition is_sort_hit (l : location) : bool :=
  match l with At_sort _ _ _ => true | _ => false end.

(** The two finish breakpoints the scripts create: the one of
    [sort_bp.commands], without commands, and the one of
    [swap_bp.commands]. *)
Definition sort_fbp : FinishBreakpoint := {| fbp_commands := [] |}.
Definition swap_fbp : FinishBreakpoint :=
  {| fbp_commands := [Enable Move_bp; Enable Move_assign_bp; Continue] |}.

Definition session_inv (s : session) : Prop :=
  sort_bp_enabled s = true
  ∧ move_bp_enabled s = move_assign_bp_enabled s
  ∧ Forall (λ f, f = sort_fbp ∨ f = swap_fbp) (finish_bps s)
  ∧ (s = loaded ∨ (is_Some (gui s) ∧ swap_bp_enabled s = true)).

(** One call of [swap] as the debugger meets it: the entry, with the two
    operands, what happens inside, and the return. *)
Definition swap_episode (ep : Z * Z * list location) : list location :=
  At_swap ep.1.1 ep.1.2 :: ep.2 ++ [At_return].

(** The one exception the front end raises itself. *)
Definition temp_to_temp : exn :=
  RuntimeError "saw an unexpected move from temporary to temporary".

(** ** The debugger commands of [my/tt.py] and [my/tools.py] *)

(** A [gdb.Block]: the symbol of the function it is the body of, if any,
    its address range and the block around it. *)
#[local] Set Warnings "-register-all".
Inductive Block := Build_Block {
  block_function : option string;
  block_start : Z;
  block_end : Z;
  superblock : option Block
}.

(** One entry of [arch.disassemble(...)]: the keys [addr], [asm] and
    [length]. *)
Record Instruction := { addr : Z; asm : string; insn_length : Z }.

(** The block and the blocks around it, from the inside out: what
    following [superblock] from a block visits. *)
Fixpoint enclosing (block : Block) : list Block :=
  block :: match superblock block with
           | Some b => enclosing b
           | None => []
           end.

(** [s.startswith(p)] *)
Definition startswith (s p : string) : bool := String.prefix p s.

(** ['*{}'.format(a)]: the location of a breakpoint at address [a]. *)
Definition at_address (a : Z) : string := "*" +:+ pretty a.

Module BreakReturn.

(** The [while block:] loop: the first block, going outwards, that has
    a [function]; [None] when the loop runs off the outermost block. *)
Fixpoint function_block (block : Block) : option Block :=
  match block_function block with
  | Some _ => Some block
  | None =>
      match superblock block with
      | Some b => function_block b
      | None => None
      end
  end.

(** The [for instruction in instructions:] loop: the locations of the
    breakpoints it creates, in order. *)
Fixpoint breakpoints (instructions : list Instruction) : list string :=
  match instructions with
  | [] => []
  | instruction :: rest =>
      if startswith (asm instruction) "retq "
      then at_address (addr instruction) :: breakpoints rest
      else breakpoints rest
  end.

(** [invoke], from the block of the selected frame; [disassemble] is
    [arch.disassemble].  Reading [.start] of [None] raises. *)
Definition invoke (disassemble : Z → Z → list Instruction) (block : Block)
    : exn + list string :=
  match function_block block with
  | None => inl AttributeError
  | Some block =>
      let start := block_start block in
      let end_ := block_end block in
      let instructions := disassemble start (end_ - 1) in
      inr (breakpoints instructions)
  end.

End BreakReturn.

Module SwitchBreaker.

(** The same loop as in [BreakReturn.invoke]. *)
Fixpoint function_block (block : Block) : option Block :=
  match block_function block with
  | Some _ => Some block
  | None =>
      match superblock block with
      | Some b => function_block b
      | None => None
      end
  end.

Fixpoint breakpoints (instructions : list Instruction) : list string :=
  match instructions with
  | [] => []
  | instruction :: rest =>
      if startswith (asm instruction) "jmpq "
      then at_address (addr instruction) :: breakpoints rest
      else breakpoints rest
  end.

Definition invoke (disassemble : Z → Z → list Instruction) (block : Block)
    : exn + list string :=
  match function_block block with
  | None => inl AttributeError
  | Some block =>
      let start := block_start block in
      let end_ := block_end block in
      let instructions := disassemble start (end_ - 1) in
      inr (breakpoints instructions)
  end.

End SwitchBreaker.

Module ContinueReturn.
Section Inferior.

(** The traced program as the command sees it: a state of the first
    thread, what one [ni] makes of it, whether the thread is still valid
    and the text of the instruction at its [pc]. *)
Variable inferior : Type.
Variable ni : inferior → inferior.
Variable is_valid : inferior → bool.
Variable asm_at_pc : inferior → string.

(** The [while thread.is_valid():] loop, for at most [fuel] rounds;
    [None] when they do not suffice. *)
Fixpoint invoke (fuel : nat) (st : inferior) : option inferior :=
  match fuel with
  | O => None
  | S fuel =>
      if is_valid st then
        let st := ni st in
        let instruction := asm_at_pc st in
        if startswith instruction "retq " then Some st else invoke fuel st
      else Some st
  end.

End Inferior.
End ContinueReturn.

(** A small listing, its blocks and a disassembler over it. *)
Definition sample_listing : list Instruction :=
  [ {| addr := 4198400; asm := "push   %rbp"; insn_length := 1 |};
    {| addr := 4198401; asm := "jmpq   *%rax"; insn_length := 2 |};
    {| addr := 4198403; asm := "retq   "; insn_length := 1 |};
    {| addr := 4198404; asm := "nop"; insn_length := 1 |};
    {| addr := 4198405; asm := "retq   "; insn_length := 1 |} ].

Definition sample_block : Block :=
  {| block_function := None; block_start := 4198401; block_end := 4198404;
     superblock := Some {| block_function := Some "f"; block_start := 4198400;
                           block_end := 4198406; superblock := None |} |}.

Definition sample_disassemble (start end_ : Z) : list Instruction :=
  filter (λ i, start <= addr i <= end_) sample_listing.

(** * Properties *)

(** ** The front end: classification of addresses and emission *)

Section FrontEnd.

Variable stride : positive.

Lemma show_move_classify (a b : Z) (self : GuiThread) :
  show_move stride a b self = emit (classify stride self a) (classify stride self b) self.
Proof.
  unfold show_move, classify, mbind, method_bind, attr; simpl.
  destruct (in_vec stride self a), (in_vec stride self b); reflexivity.
Qed.

Lemma in_vec_spec (self : GuiThread) (addr : Z) :
  in_vec stride self addr = true ↔
  base_addr self <= addr < base_addr self + size self * Z.pos stride.
Proof.
  unfold in_vec, ptr_add.
  rewrite andb_true_iff, !bool_decide_eq_true. lia.
Qed.

Lemma in_vec_false (self : GuiThread) (addr : Z) :
  in_vec stride self addr = false ↔
  ¬ (base_addr self <= addr < base_addr self + size self * Z.pos stride).
Proof. rewrite <- in_vec_spec. destruct (in_vec stride self addr); naive_solver. Qed.

Lemma str_inj (p q : Z) : str p = str q ↔ p = q.
Proof.
  split; [|congruence].
  unfold str. intros H%(f_equal HexString.to_Z).
  by rewrite !HexString.to_Z_of_Z in H.
Qed.

Lemma ptr_diff_nonneg (p q : Z) :
  q <= p → ptr_diff stride p q = (p - q) / Z.pos stride.
Proof. intros. unfold ptr_diff. apply Z.quot_div_nonneg; lia. Qed.

(** C3. An address classifies as [Slot i] exactly when it lies in
    [base, base + count*stride) and [i = (addr - base) / stride]; any
    other address classifies as the token made of its printed form, and
    two addresses print alike only when they are equal.  [show_move] is
    the four-way case on the classes of its two operands. *)
Theorem classify_correct (self : GuiThread) (addr : Z) :
  let base := base_addr self in
  let count := size self in
  (∀ i, classify stride self addr = Slot i ↔
        base <= addr < base + count * Z.pos stride ∧ i = (addr - base) / Z.pos stride)
  ∧ (¬ (base <= addr < base + count * Z.pos stride) →
     classify stride self addr = Token (str addr))
  ∧ (∀ addr', str addr = str addr' ↔ addr = addr')
  ∧ (∀ other, show_move stride addr other self
              = emit (classify stride self addr) (classify stride self other) self).
Proof.
  cbv zeta. split_and!.
  - intros i. unfold classify.
    destruct (in_vec stride self addr) eqn:E.
    + apply in_vec_spec in E. rewrite ptr_diff_nonneg by lia.
      split; [by intros [= <-]|by intros [_ ->]].
    + apply in_vec_false in E. split; [done|by intros [? _]].
  - intros E%in_vec_false. unfold classify. by rewrite E.
  - intros. apply str_inj.
  - intros. apply show_move_classify.
Qed.

(** C5. A move whose two addresses both lie outside the vector makes
    [show_move] raise, with the object exactly as it was: nothing is
    queued and neither [elements] nor [temp_elements] changes; the
    breakpoint's script stops there with that error. *)
Theorem show_move_temp_to_temp (self : GuiThread) (a b : Z) :
  ¬ (base_addr self <= a < base_addr self + size self * Z.pos stride) →
  ¬ (base_addr self <= b < base_addr self + size self * Z.pos stride) →
  show_move stride a b self
  = Raises (RuntimeError "saw an unexpected move from temporary to temporary") self
  ∧ ∀ s, gui s = Some self →
         move_commands stride a b s
         = (s, Failed (RuntimeError "saw an unexpected move from temporary to temporary")).
Proof.
  intros Ha%in_vec_false Hb%in_vec_false.
  assert (show_move stride a b self
          = Raises (RuntimeError "saw an unexpected move from temporary to temporary") self)
    as Hraise.
  { rewrite show_move_classify. unfold classify. by rewrite Ha, Hb. }
  split; [done|].
  intros s Hs. unfold move_commands, py_gui. rewrite Hs, Hraise.
  destruct s; simpl in *; by subst.
Qed.

Lemma ptr_diff_ptr_add (p k : Z) : ptr_diff stride (ptr_add stride p k) p = k.
Proof.
  unfold ptr_diff, ptr_add.
  replace (p + k * Z.pos stride - p) with (k * Z.pos stride) by lia.
  apply Z.quot_mul. lia.
Qed.

Lemma ptr_diff_below (p q : Z) : p + Z.pos stride <= q → ptr_diff stride p q < 0.
Proof.
  intros H. unfold ptr_diff.
  replace (p - q) with (- (q - p)) by lia.
  rewrite Z.quot_opp_l by lia.
  rewrite Z.quot_div_nonneg by lia.
  assert (1 <= (q - p) / Z.pos stride); [|lia].
  apply Z.div_le_lower_bound; lia.
Qed.

Lemma ptr_diff_above (p q n : Z) :
  0 <= n → q + n * Z.pos stride <= p → n <= ptr_diff stride p q.
Proof.
  intros Hn H. rewrite ptr_diff_nonneg by nia.
  apply Z.div_le_lower_bound; lia.
Qed.

Lemma ptr_diff_just_below (p q : Z) :
  q - Z.pos stride < p < q → ptr_diff stride p q = 0.
Proof.
  intros H. unfold ptr_diff.
  replace (p - q) with (- (q - p)) by lia.
  rewrite Z.quot_opp_l by lia.
  rewrite Z.quot_small by lia. done.
Qed.

(** C10, as amended. [show_swap] tests nothing: whatever the two
    addresses, it returns after queueing one [swap] message whose
    indices are the pointer differences [a.address - base_addr] and
    [b.address - base_addr].  The address of the [k]-th element from
    [base_addr] gives index [k] for every integer [k]; an address at
    least one element below [base_addr] gives a negative index, one at
    or past the end of the vector an index of [size] or more, and one
    less than an element below [base_addr] gives index 0.  So an address
    outside the vector gives an index in [0, size) exactly when it is
    less than one element below [base_addr] and the vector is not
    empty. *)
Theorem show_swap_unchecked (self : GuiThread) (a b : Z) :
  show_swap stride a b self
  = Returns ()
      (set_messages
         (messages self ++ [Msg_swap (ptr_diff stride a (base_addr self))
                                     (ptr_diff stride b (base_addr self))])
         self)
  ∧ (∀ k, ptr_diff stride (ptr_add stride (base_addr self) k) (base_addr self) = k)
  ∧ (a + Z.pos stride <= base_addr self → ptr_diff stride a (base_addr self) < 0)
  ∧ (0 <= size self → ptr_add stride (base_addr self) (size self) <= a →
     size self <= ptr_diff stride a (base_addr self))
  ∧ (base_addr self - Z.pos stride < a < base_addr self →
     ptr_diff stride a (base_addr self) = 0)
  ∧ (in_vec stride self a = false →
     (0 <= ptr_diff stride a (base_addr self) < size self
      ↔ base_addr self - Z.pos stride < a < base_addr self ∧ 0 < size self)).
Proof.
  split_and!.
  - reflexivity.
  - intros. apply ptr_diff_ptr_add.
  - apply ptr_diff_below.
  - unfold ptr_add. apply ptr_diff_above.
  - apply ptr_diff_just_below.
  - intros Hout%in_vec_false. split.
    + intros Hidx.
      destruct (decide (base_addr self <= a)) as [Hge|Hlt].
      * exfalso.
        assert (base_addr self + size self * Z.pos stride <= a) as Hend by lia.
        destruct (decide (0 <= size self)) as [Hs|Hs]; [|lia].
        pose proof (ptr_diff_above a (base_addr self) (size self) Hs Hend). lia.
      * destruct (decide (a + Z.pos stride <= base_addr self)) as [Hfar|Hnear].
        -- pose proof (ptr_diff_below a (base_addr self) Hfar). lia.
        -- lia.
    + intros [Hnear Hs]. rewrite ptr_diff_just_below by done. lia.
Qed.

End FrontEnd.

Lemma classify_correct_witness :
  classify 4 (__init__ 4 (λ _, 0) 4096 4) 5000 = Token "0x1388".
Proof.
  apply (proj1 (proj2 (classify_correct 4 (__init__ 4 (λ _, 0) 4096 4) 5000))).
  simpl. lia.
Defined.

Lemma show_move_temp_to_temp_witness :
  show_move 4 5000 6000 (__init__ 4 (λ _, 0) 4096 4)
  = Raises (RuntimeError "saw an unexpected move from temporary to temporary")
      (__init__ 4 (λ _, 0) 4096 4).
Proof.
  apply (show_move_temp_to_temp 4 (__init__ 4 (λ _, 0) 4096 4) 5000 6000);
    simpl; lia.
Defined.

Lemma show_swap_unchecked_witness :
  ptr_diff 4 4088 4096 < 0 ∧ 4 <= ptr_diff 4 4112 4096.
Proof.
  pose proof (show_swap_unchecked 4 (__init__ 4 (λ _, 0) 4096 4) 4088 4112) as (_ & _ & H & _).
  pose proof (show_swap_unchecked 4 (__init__ 4 (λ _, 0) 4096 4) 4112 4088) as (_ & _ & _ & H' & _).
  split; [apply H|apply H']; simpl; unfold ptr_add; lia.
Defined.

Lemma show_swap_outside_counterexample :
  in_vec 4 sample 4095 = false
  ∧ show_swap 4 4095 4100 sample = Returns () (set_messages [Msg_swap 0 1] sample)
  ∧ 0 <= 0 < size sample
  ∧ in_range sample 0 = true.
Proof. split_and!; first [reflexivity | simpl; lia]. Qed.

(** ** The back end: one message at a time *)

Ltac method_unfold :=
  repeat progress
    (unfold temp_elements_get, temp_elements_set, _perform_move, raise, attr,
       assign, mbind, method_bind, mret, method_ret; simpl).

Section PyListFacts.
Context {A : Type}.
Implicit Types (l : list A) (i : Z) (n : nat).

Lemma position_lt len i n : PyList.position len i = Some n → (n < len)%nat.
Proof.
  unfold PyList.position. repeat case_bool_decide; intros [= <-]; lia.
Qed.

Lemma getitem_Some l i x :
  PyList.getitem l i = Some x ↔
  ∃ n, PyList.position (length l) i = Some n ∧ l !! n = Some x.
Proof.
  unfold PyList.getitem.
  destruct (PyList.position (length l) i) as [n|]; simpl.
  - split; [by exists n|by intros (? & [= <-] & ?)].
  - split; [done|by intros (? & ? & ?)].
Qed.

End PyListFacts.

Lemma live_slots_cons e l : live_slots (e :: l) = (weight e + live_slots l)%nat.
Proof.
  unfold live_slots. rewrite filter_cons.
  destruct (decide (is_Some e)) as [[x ->]|H]; [done|].
  destruct e; [by destruct H|done].
Qed.

Lemma live_slots_insert l n x y :
  l !! n = Some y →
  (live_slots (<[n:=x]> l) + weight y = live_slots l + weight x)%nat.
Proof.
  revert n. induction l as [|e l IH]; intros [|n] H; simplify_eq/=.
  - rewrite !live_slots_cons. lia.
  - rewrite !live_slots_cons. specialize (IH _ H). lia.
Qed.

Lemma live_temps_insert (t : gmap string (QPointF * option AnimProxy)) k pos e :
  (live_temps (<[k:=(pos, e)]> t) + temp_weight (t !! k) = live_temps t + weight e)%nat.
Proof.
  unfold live_temps. rewrite map_filter_insert. simpl.
  set (P := λ kv : string * (QPointF * option AnimProxy), is_Some kv.2.2).
  assert (∀ v, filter P t !! k = Some v → t !! k = Some v ∧ temp_weight (t !! k) = 1%nat) as HS.
  { intros [p [x|]] [Ht HP]%map_lookup_filter_Some; [by rewrite Ht|by destruct HP]. }
  assert (filter P t !! k = None → temp_weight (t !! k) = 0%nat) as HN.
  { intros [Ht|Ht]%map_lookup_filter_None; [by rewrite Ht|].
    destruct (t !! k) as [[p [x|]]|] eqn:E; try done.
    exfalso. apply (Ht _ eq_refl). by eexists. }
  destruct (filter P t !! k) as [v|] eqn:E.
  - destruct (HS v eq_refl) as [_ ->].
    case_decide as He.
    + rewrite map_size_insert_Some by eauto. destruct He as [? ->]. simpl. lia.
    + rewrite map_filter_delete.
      rewrite <- (insert_delete_id (filter P t) k v) at 2 by done.
      rewrite map_size_insert_None by apply lookup_delete_eq.
      destruct e; [by destruct He|simpl; lia].
  - rewrite (HN eq_refl).
    case_decide as He.
    + rewrite map_size_insert_None by done. destruct He as [? ->]. simpl. lia.
    + rewrite map_filter_delete, map_size_delete_None by done.
      destruct e; [by destruct He|simpl; lia].
Qed.

Section Dispatch.
Implicit Types (self : GuiThread) (e : option AnimProxy).

Lemma elements_get_eq self i :
  elements_get i self
  = match slot self i with
    | Some e => Returns e self
    | None => Raises IndexError self
    end.
Proof.
  unfold slot, elements_get. method_unfold.
  by destruct (PyList.getitem _ _).
Qed.

Lemma elements_set_eq self i e :
  elements_set i e self
  = match PyList.position (length (elements self)) i with
    | Some n => Returns () (set_elements (<[n:=e]> (elements self)) self)
    | None => Raises IndexError self
    end.
Proof.
  unfold elements_set, PyList.setitem. method_unfold.
  by destruct (PyList.position _ _).
Qed.

Lemma slot_Some self i x :
  slot self i = Some x ↔
  ∃ n, PyList.position (length (elements self)) i = Some n ∧ elements self !! n = Some x.
Proof. apply getitem_Some. Qed.

Lemma dispatch_swap self a b na nb ea eb :
  PyList.position (length (elements self)) a = Some na →
  PyList.position (length (elements self)) b = Some nb →
  elements self !! na = Some (Some ea) →
  elements self !! nb = Some (Some eb) →
  dispatch (Msg_swap a b) self
  = Returns () (set_elements (<[nb:=Some ea]> (<[na:=Some eb]> (elements self))) self).
Proof.
  intros Ha Hb Hea Heb.
  assert (slot self a = Some (Some ea)) as Sa by (apply slot_Some; eauto).
  assert (slot self b = Some (Some eb)) as Sb by (apply slot_Some; eauto).
  unfold dispatch, _perform_swap, mbind, method_bind.
  rewrite elements_get_eq, Sa, elements_get_eq, Sb. simpl.
  rewrite elements_set_eq, Ha, elements_set_eq. simpl.
  by rewrite length_insert, Hb.
Qed.

Lemma dispatch_move self a b na nb e :
  PyList.position (length (elements self)) a = Some na →
  PyList.position (length (elements self)) b = Some nb →
  elements self !! na = Some e →
  dispatch (Msg_move a b) self
  = Returns () (set_elements (<[na:=None]> (<[nb:=e]> (elements self))) self).
Proof.
  intros Ha Hb He.
  assert (slot self a = Some e) as Sa by (apply slot_Some; eauto).
  unfold dispatch, mbind, method_bind.
  rewrite elements_get_eq, Sa, elements_set_eq, Hb, elements_set_eq. simpl.
  rewrite length_insert, Ha, elements_get_eq.
  unfold slot, PyList.getitem. simpl. rewrite !length_insert, Hb. simpl.
  pose proof (position_lt _ _ _ Hb) as Hlt.
  destruct (lookup_lt_is_Some_2 (<[na:=None]> (<[nb:=e]> (elements self))) nb) as [x ->];
    [by rewrite !length_insert|done].
Qed.

Lemma dispatch_move_from_temp self k b nb pos e :
  temp_elements self !! k = Some (pos, e) →
  PyList.position (length (elements self)) b = Some nb →
  dispatch (Msg_move_from_temp k b) self
  = Returns ()
      (set_elements (<[nb:=e]> (elements self))
         (set_temp_elements (<[k:=(pos, None)]> (temp_elements self)) self)).
Proof.
  intros Hk Hb.
  unfold dispatch. method_unfold.
  rewrite Hk. simpl. rewrite elements_set_eq. simpl. by rewrite Hb.
Qed.

Lemma dispatch_move_to_temp self a k na e :
  PyList.position (length (elements self)) a = Some na →
  elements self !! na = Some e →
  dispatch (Msg_move_to_temp a k) self
  = Returns ()
      (set_elements (<[na:=None]> (elements self))
         (set_temp_elements
            (<[k:=(match temp_elements self !! k with
                   | Some (pos, _) => pos
                   | None => (20 + 20 * Z.of_nat (len (temp_elements self)), 60)
                   end, e)]> (temp_elements self)) self)).
Proof.
  intros Ha He.
  assert (slot self a = Some e) as Sa by (apply slot_Some; eauto).
  unfold dispatch. method_unfold.
  destruct (temp_elements self !! k) as [[pos x]|] eqn:Hk; method_unfold;
    rewrite ?Hk; method_unfold;
    rewrite elements_get_eq, Sa; method_unfold;
    rewrite elements_get_eq, Sa; method_unfold;
    rewrite elements_set_eq; simpl; by rewrite Ha.
Qed.

(** Missing key: nothing has been assigned when the lookup raises. *)
Lemma dispatch_move_from_temp_missing self k b :
  temp_elements self !! k = None →
  dispatch (Msg_move_from_temp k b) self = Raises (KeyError k) self.
Proof.
  intros Hk.
  unfold dispatch. method_unfold. by rewrite Hk.
Qed.
End Dispatch.

Section Conservation.
Implicit Types (self : GuiThread) (m : message).

Lemma occupied_true self i :
  occupied self i = true →
  ∃ n x, PyList.position (length (elements self)) i = Some n
         ∧ elements self !! n = Some (Some x).
Proof.
  unfold occupied. destruct (slot self i) as [[x|]|] eqn:E; try done.
  apply slot_Some in E as (n & ? & ?). eauto.
Qed.

Lemma vacant_true self i :
  vacant self i = true →
  ∃ n, PyList.position (length (elements self)) i = Some n
       ∧ elements self !! n = Some None.
Proof.
  unfold vacant. destruct (slot self i) as [[x|]|] eqn:E; try done.
  apply slot_Some in E as (n & ? & ?). eauto.
Qed.

Lemma in_range_true self i :
  in_range self i = true →
  ∃ n e, PyList.position (length (elements self)) i = Some n
         ∧ elements self !! n = Some e.
Proof.
  unfold in_range. rewrite bool_decide_eq_true. intros [e E].
  apply slot_Some in E as (n & ? & ?). eauto.
Qed.

Lemma temp_vacant_true self k :
  temp_vacant self k = true → temp_weight (temp_elements self !! k) = 0%nat.
Proof.
  unfold temp_vacant. by destruct (temp_elements self !! k) as [[? [?|]]|].
Qed.

(** An admissible message is handled without an exception and leaves
    the number of held elements as it was. *)
Lemma dispatch_conserves self m :
  admissible self m = true →
  ∃ self', dispatch m self = Returns () self' ∧ held self' = held self.
Proof.
  destruct m as [a b|a b|k b|a k]; simpl; intros [H1 H2]%andb_true_iff.
  - apply occupied_true in H1 as (na & ea & Ha & Hea).
    apply occupied_true in H2 as (nb & eb & Hb & Heb).
    eexists. split; [by eapply dispatch_swap|].
    unfold held. simpl. f_equal.
    pose proof (live_slots_insert _ _ (Some eb) _ Hea) as E1.
    assert (∃ x, <[na:=Some eb]> (elements self) !! nb = Some (Some x)) as [x Hx].
    { destruct (decide (na = nb)) as [->|Hne].
      - exists eb. apply list_lookup_insert_eq. by eapply lookup_lt_Some.
      - exists eb. by rewrite list_lookup_insert_ne. }
    pose proof (live_slots_insert _ _ (Some ea) _ Hx) as E2.
    simpl in *. lia.
  - apply in_range_true in H1 as (na & e & Ha & He).
    apply vacant_true in H2 as (nb & Hb & Hnb).
    eexists. split; [by eapply dispatch_move|].
    unfold held. simpl. f_equal.
    pose proof (live_slots_insert _ _ e _ Hnb) as E1.
    assert (<[nb:=e]> (elements self) !! na = Some e) as Hx.
    { destruct (decide (nb = na)) as [->|Hne].
      - apply list_lookup_insert_eq. by eapply lookup_lt_Some.
      - by rewrite list_lookup_insert_ne. }
    pose proof (live_slots_insert _ _ None _ Hx) as E2.
    simpl in *. lia.
  - apply bool_decide_eq_true in H1 as [[pos e] Hk].
    apply vacant_true in H2 as (nb & Hb & Hnb).
    eexists. split; [by eapply dispatch_move_from_temp|].
    unfold held. simpl.
    pose proof (live_slots_insert _ _ e _ Hnb) as E1.
    pose proof (live_temps_insert (temp_elements self) k pos None) as E2.
    rewrite Hk in E2. destruct e; simpl in *; lia.
  - apply in_range_true in H1 as (na & e & Ha & He).
    apply temp_vacant_true in H2.
    eexists. split; [by eapply dispatch_move_to_temp|].
    unfold held. simpl.
    pose proof (live_slots_insert _ _ None _ He) as E1.
    match goal with |- context [<[k:=(?p, e)]> _] =>
      pose proof (live_temps_insert (temp_elements self) k p e) as E2 end.
    rewrite H2 in E2. change (weight None) with 0%nat in E1.
    set (X := live_temps (<[k:=_]> _)) in *. clearbody X. lia.
Qed.

Lemma admissible_run_conserves ms self k :
  admissible_run ms self = true →
  ∃ self', apply_all (take k ms) self = Returns () self' ∧ held self' = held self.
Proof.
  revert self k. induction ms as [|m ms IH]; intros self k H.
  - rewrite take_nil. by exists self.
  - destruct k as [|k]; [by exists self|].
    simpl in H. apply andb_true_iff in H as [Hm H].
    destruct (dispatch_conserves _ _ Hm) as (self1 & E1 & Hheld).
    rewrite E1 in H. destruct (IH self1 k H) as (self' & E & Hheld').
    exists self'. split; [|congruence].
    simpl. unfold mbind, method_bind. by rewrite E1.
Qed.

Lemma live_slots_imap_Some (f : nat → Z → AnimProxy) (vs : list Z) :
  live_slots (imap (λ idx v, Some (f idx v)) vs) = length vs.
Proof.
  revert f. induction vs as [|v vs IH]; intros f; [done|].
  simpl. rewrite live_slots_cons. simpl. f_equal. apply (IH (f ∘ S)).
Qed.

Lemma held_run stride deref base n :
  held (run (__init__ stride deref base n)) = Z.to_nat n.
Proof.
  unfold held, run. simpl.
  rewrite (live_slots_imap_Some (λ idx v, {| elt_idx := Z.of_nat idx; elt_value := v |})).
  unfold live_temps. rewrite map_filter_empty, map_size_empty.
  rewrite length_fmap, length_seqZ. lia.
Qed.
End Conservation.

Section MethodRules.
Context {A B : Type}.

Lemma queue_blind_bind (m : method A) (k : A → method B) :
  queue_blind m → (∀ v, queue_blind (k v)) → queue_blind (m ≫= k).
Proof.
  intros Hm Hk q self. unfold mbind, method_bind. rewrite Hm.
  destruct (m self); simpl; [apply Hk|done].
Qed.

Lemma queue_blind_ret (v : A) : queue_blind (mret v).
Proof. by intros q self. Qed.

Lemma queue_blind_raise e : queue_blind (raise (A:=A) e).
Proof. by intros q self. Qed.

Lemma keeps_bind P (m : method A) (k : A → method B) :
  keeps P m → (∀ v, keeps P (k v)) → keeps P (m ≫= k).
Proof.
  intros Hm Hk self HP. unfold mbind, method_bind.
  specialize (Hm self HP). destruct (m self); simpl in *; [by apply Hk|done].
Qed.

Lemma keeps_ret P (v : A) : keeps P (mret v).
Proof. by intros self. Qed.

Lemma keeps_raise P e : keeps P (raise (A:=A) e).
Proof. by intros self. Qed.

Lemma keeps_attr P (f : GuiThread → A) : keeps P (attr f).
Proof. by intros self. Qed.
End MethodRules.

Lemma queue_blind_elements_get i : queue_blind (elements_get i).
Proof. intros q self. rewrite !elements_get_eq. unfold slot. simpl. by case_match. Qed.

Lemma queue_blind_elements_set i e : queue_blind (elements_set i e).
Proof. intros q self. rewrite !elements_set_eq. simpl. by case_match. Qed.

Lemma queue_blind_temp_elements_get k : queue_blind (temp_elements_get k).
Proof. intros q self. unfold temp_elements_get. method_unfold. by case_match. Qed.

Lemma queue_blind_temp_elements_set k v : queue_blind (temp_elements_set k v).
Proof. by intros q self. Qed.

Lemma queue_blind_attr_temp_elements : queue_blind (attr temp_elements).
Proof. by intros q self. Qed.

Lemma queue_blind_pos_of e : queue_blind (pos_of e).
Proof. by destruct e. Qed.

Lemma queue_blind_perform_move e pos : queue_blind (_perform_move e pos).
Proof. by intros q self. Qed.

Create HintDb queue_blind.
#[local] Hint Resolve queue_blind_bind queue_blind_ret queue_blind_raise
  queue_blind_elements_get queue_blind_elements_set queue_blind_temp_elements_get
  queue_blind_temp_elements_set queue_blind_attr_temp_elements queue_blind_pos_of
  queue_blind_perform_move : queue_blind.

Lemma queue_blind_dispatch m : queue_blind (dispatch m).
Proof.
  destruct m; unfold dispatch, _perform_swap;
    repeat first [ solve [auto with queue_blind] | apply queue_blind_bind
                 | progress case_match | intro ].
Qed.

Lemma keeps_elements_get P i : keeps P (elements_get i).
Proof. intros self HP. rewrite elements_get_eq. by case_match. Qed.

Lemma keeps_elements_set (P : GuiThread → Prop) i e :
  (∀ l self, P self → P (set_elements l self)) → keeps P (elements_set i e).
Proof. intros H self HP. rewrite elements_set_eq. case_match; simpl; auto. Qed.

Lemma keeps_temp_elements_get P k : keeps P (temp_elements_get k).
Proof. intros self HP. unfold temp_elements_get. method_unfold. by case_match. Qed.

Lemma keeps_pos_of P e : keeps P (pos_of e).
Proof. intros self HP. by destruct e. Qed.

Lemma keeps_perform_move P e pos : keeps P (_perform_move e pos).
Proof. by intros self. Qed.

Lemma keeps_absent_temp_elements_set k k' v :
  k' ≠ k → keeps (absent k) (temp_elements_set k' v).
Proof.
  intros Hne self HP. unfold absent. simpl. by rewrite lookup_insert_ne.
Qed.

Lemma absent_set_elements k l self : absent k self → absent k (set_elements l self).
Proof. done. Qed.

Create HintDb keeps.
#[local] Hint Resolve keeps_bind keeps_ret keeps_raise keeps_attr keeps_elements_get
  keeps_elements_set keeps_temp_elements_get keeps_pos_of keeps_perform_move
  keeps_absent_temp_elements_set absent_set_elements : keeps.

(** Only [move_to_temp] adds a key to [temp_elements]. *)
Lemma dispatch_keeps_absent m k :
  (∀ src, m ≠ Msg_move_to_temp src k) → keeps (absent k) (dispatch m).
Proof.
  intros Hm. destruct m as [a b|a b|t b|a t].
  - unfold dispatch, _perform_swap.
    repeat first [ solve [auto with keeps] | apply keeps_bind | intro ].
  - unfold dispatch.
    repeat first [ solve [auto with keeps] | apply keeps_bind | intro ].
  - destruct (decide (t = k)) as [->|Hne].
    + intros self HP. by rewrite dispatch_move_from_temp_missing.
    + unfold dispatch.
      repeat first [ solve [auto with keeps] | apply keeps_bind
                   | progress case_match | intro ].
  - assert (t ≠ k) by (intros ->; by eapply Hm).
    unfold dispatch.
    repeat first [ solve [auto with keeps] | apply keeps_bind
                 | progress case_match | intro ].
Qed.

Lemma apply_all_keeps_absent ms k :
  (∀ src, Msg_move_to_temp src k ∉ ms) → keeps (absent k) (apply_all ms).
Proof.
  induction ms as [|m ms IH]; intros H; simpl.
  - apply keeps_ret.
  - apply keeps_bind.
    + apply dispatch_keeps_absent. intros src ->. apply (H src). left.
    + intros _. apply IH. intros src Hin. apply (H src). by right.
Qed.

Lemma check_for_messages_cons m rest self :
  messages self = m :: rest →
  _check_for_messages self = dispatch m (set_messages rest self).
Proof. intros H. unfold _check_for_messages. method_unfold. by rewrite H. Qed.

Lemma check_for_messages_nil self :
  messages self = [] → _check_for_messages self = Returns () self.
Proof. intros H. unfold _check_for_messages. method_unfold. by rewrite H. Qed.

Lemma poll_nil n self : messages self = [] → poll n self = Returns () self.
Proof.
  intros H. induction n as [|n IH]; [done|].
  simpl. unfold mbind, method_bind. by rewrite check_for_messages_nil.
Qed.

Lemma poll_fifo n self self' :
  apply_all (take n (messages self)) (set_messages [] self) = Returns () self' →
  poll n self = Returns () (set_messages (drop n (messages self)) self').
Proof.
  revert self. induction n as [|n IH]; intros self H.
  - injection H as <-. rewrite drop_0. by destruct self.
  - destruct (messages self) as [|m rest] eqn:Hq.
    + rewrite poll_nil by done. injection H as <-.
      destruct self; simpl in *; by subst.
    + simpl in H. unfold mbind, method_bind in H.
      rewrite queue_blind_dispatch in H.
      destruct (dispatch m self) as [[] s0|] eqn:Hd; simpl in H; [|done].
      simpl. unfold mbind, method_bind.
      rewrite (check_for_messages_cons m rest) by done.
      rewrite queue_blind_dispatch, Hd. simpl.
      apply (IH (set_messages rest s0)). by simpl.
Qed.

(** C8. Swapping the same two slots twice gives back the object as it
    was, slot for slot.  When both indices designate occupied slots the
    two calls return and the second undoes the first (also when the two
    indices name one slot); otherwise the first call already raises and
    has changed nothing. *)
Theorem swap_involution (self : GuiThread) (a b : Z) :
  (occupied self a && occupied self b = true →
   ∃ self1, _perform_swap a b self = Returns () self1
            ∧ _perform_swap a b self1 = Returns () self)
  ∧ (occupied self a && occupied self b = false →
     ∃ e, _perform_swap a b self = Raises e self).
Proof.
  split.
  - intros [Ha Hb]%andb_true_iff.
    apply occupied_true in Ha as (na & ea & Ha & Hea).
    apply occupied_true in Hb as (nb & eb & Hb & Heb).
    pose proof (dispatch_swap self a b na nb ea eb Ha Hb Hea Heb) as E1.
    simpl in E1. eexists. split; [exact E1|].
    set (l1 := <[nb:=Some ea]> (<[na:=Some eb]> (elements self))).
    assert (length l1 = length (elements self)) as Hlen
      by (unfold l1; by rewrite !length_insert).
    pose proof (lookup_lt_Some _ _ _ Hea) as Hna.
    pose proof (lookup_lt_Some _ _ _ Heb) as Hnb.
    assert (∃ ea' eb', l1 !! na = Some (Some ea') ∧ l1 !! nb = Some (Some eb')
                       ∧ <[nb:=Some ea']> (<[na:=Some eb']> l1) = elements self)
      as (ea' & eb' & Hea' & Heb' & Hl).
    { unfold l1. destruct (decide (na = nb)) as [->|Hne].
      - simplify_eq. exists ea, ea.
        rewrite !list_insert_insert_eq.
        rewrite list_lookup_insert_eq by done.
        split_and!; [done..|]. by apply list_insert_id.
      - exists eb, ea.
        rewrite list_lookup_insert_ne by done.
        rewrite list_lookup_insert_eq by done.
        rewrite list_lookup_insert_eq by (by rewrite length_insert).
        split_and!; [done..|].
        rewrite (list_insert_insert_ne _ na nb) by done.
        rewrite !list_insert_insert_eq.
        rewrite (list_insert_id _ na) by done.
        by apply list_insert_id. }
    pose proof (dispatch_swap (set_elements l1 self) a b na nb ea' eb') as E2.
    simpl in E2. rewrite Hlen in E2. specialize (E2 Ha Hb Hea' Heb').
    rewrite E2, Hl. by destruct self.
  - intros H. unfold _perform_swap, mbind, method_bind.
    unfold occupied in H. rewrite !elements_get_eq.
    destruct (slot self a) as [[ea|]|]; simpl in *; rewrite ?elements_get_eq;
      destruct (slot self b) as [[eb|]|]; simpl in *; try done; by eexists.
Qed.

(** C1, as amended.  From the model built for a vector of [n] elements,
    a run of messages each admissible in the state it meets is handled
    without an exception, and after every message of the run ([k] of
    them, for every [k]) the occupied slots and the temporaries that hold
    an element number [n] together. *)
Theorem conservation_admissible (stride : positive) (deref : Z → Z) (base n : Z)
    (ms : list message) (k : nat) :
  admissible_run ms (run (__init__ stride deref base n)) = true →
  ∃ self', apply_all (take k ms) (run (__init__ stride deref base n)) = Returns () self'
           ∧ held self' = Z.to_nat n.
Proof.
  intros H. destruct (admissible_run_conserves ms _ k H) as (self' & E & Hheld).
  exists self'. split; [done|]. by rewrite Hheld, held_run.
Qed.

Lemma conservation_admissible_witness :
  ∃ self',
    apply_all [Msg_swap 0 1; Msg_move_to_temp 3 "t1"; Msg_move 2 3;
               Msg_move_from_temp "t1" 2] sample = Returns () self'
    ∧ held self' = 4%nat.
Proof.
  apply (conservation_admissible 4 sample_memory 4096 4
           [Msg_swap 0 1; Msg_move_to_temp 3 "t1"; Msg_move 2 3;
            Msg_move_from_temp "t1" 2] 4).
  vm_compute. reflexivity.
Defined.

Lemma conservation_counterexample :
  ∃ self', dispatch (Msg_move 0 1) sample = Returns () self'
           ∧ slot_values sample = [Some 3; Some 1; Some 4; Some 2]
           ∧ slot_values self' = [None; Some 3; Some 4; Some 2]
           ∧ temp_elements self' = ∅
           ∧ held sample = 4%nat
           ∧ held self' = 3%nat.
Proof. eexists. split; [reflexivity|]. vm_compute. done. Qed.

(** C4, as amended.  One tick of the poll timer with an empty queue
    returns at once and changes nothing; with a non-empty queue it takes
    the oldest message only, handles it, and leaves the later ones queued
    in their order.  [n] ticks therefore handle the [n] oldest messages
    first in, first out, and leave the rest queued. *)
Theorem poll_one_at_a_time (self : GuiThread) :
  (messages self = [] → _check_for_messages self = Returns () self)
  ∧ (∀ m rest, messages self = m :: rest →
       _check_for_messages self = dispatch m (set_messages rest self)
       ∧ messages (final (_check_for_messages self)) = rest)
  ∧ (∀ n self',
       apply_all (take n (messages self)) (set_messages [] self) = Returns () self' →
       poll n self = Returns () (set_messages (drop n (messages self)) self')).
Proof.
  split_and!.
  - apply check_for_messages_nil.
  - intros m rest H. rewrite (check_for_messages_cons m rest) by done.
    split; [done|]. rewrite queue_blind_dispatch. by destruct (dispatch m self).
  - intros n self'. apply poll_fifo.
Qed.

Lemma poll_one_at_a_time_witness :
  ∃ self',
    poll 1 (set_messages [Msg_swap 0 1; Msg_swap 1 2] sample) = Returns () self'
    ∧ messages self' = [Msg_swap 1 2]
    ∧ slot_values self' = [Some 1; Some 3; Some 4; Some 2].
Proof.
  eexists. split.
  - apply (proj2 (proj2 (poll_one_at_a_time
                           (set_messages [Msg_swap 0 1; Msg_swap 1 2] sample))) 1%nat).
    reflexivity.
  - split; reflexivity.
Defined.

Lemma poll_drains_counterexample :
  ∃ self' self'',
    _check_for_messages (set_messages [Msg_swap 0 1; Msg_swap 1 2] sample)
    = Returns () self'
    ∧ messages self' = [Msg_swap 1 2]
    ∧ slot_values self' = [Some 1; Some 3; Some 4; Some 2]
    ∧ apply_all [Msg_swap 0 1; Msg_swap 1 2] sample = Returns () self''
    ∧ slot_values self'' = [Some 1; Some 4; Some 3; Some 2].
Proof. do 2 eexists. split_and!; reflexivity. Qed.

(** C6.  After any run, from the initial model, of messages none of
    which is a [move_to_temp] for token [t], [temp_elements] has no key
    [t]: a [move_from_temp] from [t] raises [KeyError] at the lookup,
    before any assignment, so the slots and the temporaries stay as they
    were (the poll has taken the message off the queue). *)
Theorem move_from_temp_missing (stride : positive) (deref : Z → Z) (base n : Z)
    (ms : list message) (self : GuiThread) (t : string) (dst : Z) :
  (∀ src, Msg_move_to_temp src t ∉ ms) →
  apply_all ms (run (__init__ stride deref base n)) = Returns () self →
  dispatch (Msg_move_from_temp t dst) self = Raises (KeyError t) self
  ∧ ∀ rest, _check_for_messages (set_messages (Msg_move_from_temp t dst :: rest) self)
            = Raises (KeyError t) (set_messages rest self).
Proof.
  intros Hms Hrun.
  assert (absent t self) as Habs.
  { pose proof (apply_all_keeps_absent ms t Hms (run (__init__ stride deref base n))) as H.
    rewrite Hrun in H. apply H. apply lookup_empty. }
  split; [by apply dispatch_move_from_temp_missing|].
  intros rest. rewrite (check_for_messages_cons _ rest) by done.
  by apply dispatch_move_from_temp_missing.
Qed.

Lemma move_from_temp_missing_witness :
  dispatch (Msg_move_from_temp "t2" 3)
    (final (apply_all [Msg_swap 0 1; Msg_move_to_temp 3 "t1"] sample))
  = Raises (KeyError "t2") (final (apply_all [Msg_swap 0 1; Msg_move_to_temp 3 "t1"] sample)).
Proof.
  apply (move_from_temp_missing 4 sample_memory 4096 4
           [Msg_swap 0 1; Msg_move_to_temp 3 "t1"] _ "t2" 3).
  - intros src Hin. repeat (apply elem_of_cons in Hin as [Hin|Hin]; [discriminate Hin|]).
    by apply elem_of_nil in Hin.
  - reflexivity.
Defined.

(** C9.  When token [t] is a key of [temp_elements] whose entry holds
    no element, a [move_from_temp] from [t] into a slot in range returns
    normally: it stores [None] in that slot and leaves the entry as it
    was.  A [KeyError] is raised only when [t] is not a key at all. *)
Theorem move_from_temp_withdrawn (self : GuiThread) (t : string) (dst : Z) (pos : QPointF) :
  (temp_elements self !! t = Some (pos, None) →
   in_range self dst = true →
   ∃ self', dispatch (Msg_move_from_temp t dst) self = Returns () self'
            ∧ slot self' dst = Some None
            ∧ temp_elements self' = temp_elements self)
  ∧ (∀ k self', dispatch (Msg_move_from_temp t dst) self = Raises (KeyError k) self' →
                temp_elements self !! t = None).
Proof.
  split.
  - intros Ht (n & e & Hn & He)%in_range_true.
    eexists. split; [by eapply dispatch_move_from_temp|].
    split; simpl.
    + apply slot_Some. exists n. simpl. rewrite length_insert. split; [done|].
      apply list_lookup_insert_eq. by eapply lookup_lt_Some.
    + by apply insert_id.
  - intros k self'. destruct (temp_elements self !! t) as [[p e]|] eqn:Ht; [|done].
    unfold dispatch. method_unfold. rewrite Ht. method_unfold.
    rewrite elements_set_eq. simpl. by case_match.
Qed.

Lemma move_from_temp_withdrawn_witness :
  ∃ self',
    dispatch (Msg_move_from_temp "t1" 0)
      (final (apply_all [Msg_move_to_temp 3 "t1"; Msg_move_from_temp "t1" 3] sample))
    = Returns () self'
    ∧ slot self' 0 = Some None.
Proof.
  destruct (proj1 (move_from_temp_withdrawn
              (final (apply_all [Msg_move_to_temp 3 "t1"; Msg_move_from_temp "t1" 3] sample))
              "t1" 0 (20, 60)))
    as (self' & E & Hs & _); [reflexivity|reflexivity|].
  exists self'. by split.
Defined.

(** C7.  On the vector [3, 1, 4, 2]: the swap of slots 0 and 1 gives
    [1, 3, 4, 2]; [move_to_temp] of slot 3 to "t1" empties slot 3 and
    records under "t1" the position (20, 60) with the element of value 2;
    [move_from_temp] from "t1" to slot 3 gives back the slots as they
    were after the swap and leaves "t1" at position (20, 60) holding
    nothing.  In general, for a slot index [s] in range and a token [t]
    not yet a key, [move_to_temp s t] followed by [move_from_temp t s]
    gives back the slots, and [t] keeps the position it was given. *)
Theorem temp_round_trip :
  (∃ g1 g2 g3,
     dispatch (Msg_swap 0 1) sample = Returns () g1
     ∧ slot_values g1 = [Some 1; Some 3; Some 4; Some 2]
     ∧ dispatch (Msg_move_to_temp 3 "t1") g1 = Returns () g2
     ∧ slot_values g2 = [Some 1; Some 3; Some 4; None]
     ∧ temp_elements g2 = {[ "t1" := ((20, 60), Some {| elt_idx := 3; elt_value := 2 |}) ]}
     ∧ dispatch (Msg_move_from_temp "t1" 3) g2 = Returns () g3
     ∧ slot_values g3 = [Some 1; Some 3; Some 4; Some 2]
     ∧ elements g3 = elements g1
     ∧ temp_elements g3 = {[ "t1" := ((20, 60), None) ]})
  ∧ (∀ self s t,
       in_range self s = true →
       temp_elements self !! t = None →
       ∃ self1 self2,
         dispatch (Msg_move_to_temp s t) self = Returns () self1
         ∧ dispatch (Msg_move_from_temp t s) self1 = Returns () self2
         ∧ elements self2 = elements self
         ∧ temp_elements self2
           = <[t:=((20 + 20 * Z.of_nat (len (temp_elements self)), 60), None)]>
               (temp_elements self)).
Proof.
  split.
  - do 3 eexists. split_and!; reflexivity.
  - intros self s t (n & e & Hn & He)%in_range_true Ht.
    pose proof (dispatch_move_to_temp self s t n e Hn He) as E1.
    rewrite Ht in E1.
    do 2 eexists. split; [exact E1|].
    split.
    + eapply dispatch_move_from_temp; simpl.
      * apply lookup_insert_eq.
      * by rewrite length_insert.
    + simpl. split.
      * rewrite list_insert_insert_eq. by apply list_insert_id.
      * apply insert_insert_eq.
Qed.

Lemma temp_round_trip_witness :
  ∃ self1 self2,
    dispatch (Msg_move_to_temp (-1) "0x7ffe0010") sample = Returns () self1
    ∧ dispatch (Msg_move_from_temp "0x7ffe0010" (-1)) self1 = Returns () self2
    ∧ elements self2 = elements sample.
Proof.
  destruct (proj2 temp_round_trip sample (-1) "0x7ffe0010")
    as (self1 & self2 & E1 & E2 & El & _); [reflexivity|reflexivity|].
  exists self1, self2. by split_and!.
Defined.

Section Choreography.
Variable stride : positive.

Lemma moves_suppressed (inner : list location) (rest : list location) (s : session) :
  forallb is_move_hit inner = true →
  move_bp_enabled s = false →
  move_assign_bp_enabled s = false →
  execute stride (inner ++ rest) s = execute stride rest s.
Proof.
  intros Hin Hm Hma. induction inner as [|l inner IH]; [done|].
  simpl in Hin. apply andb_true_iff in Hin as [Hl Hin].
  destruct l; try done; simpl; rewrite ?Hm, ?Hma; by apply IH.
Qed.

(** C2.  With the swap breakpoint enabled, a hit of [swap] followed by
    any number of hits of the move constructor and of the move
    assignment operator and then by the return of that [swap] call
    queues exactly one message, the [swap] one: the hits in between
    queue nothing, because the two move breakpoints are disabled from
    the swap hit until its finish breakpoint enables them again. *)
Theorem swap_suppresses_moves (s : session) (g : GuiThread) (a b : Z)
    (inner : list location) :
  swap_bp_enabled s = true →
  gui s = Some g →
  forallb is_move_hit inner = true →
  ∃ s', execute stride (At_swap a b :: inner ++ [At_return]) s = (s', Resumed)
        ∧ gui s'
          = Some (set_messages
                    (messages g ++ [Msg_swap (ptr_diff stride a (base_addr g))
                                             (ptr_diff stride b (base_addr g))]) g)
        ∧ move_bp_enabled s' = true
        ∧ move_assign_bp_enabled s' = true
        ∧ swap_bp_enabled s' = true
        ∧ finish_bps s' = finish_bps s.
Proof.
  intros Hs Hg Hin. eexists.
  split.
  - simpl. rewrite Hs. unfold swap_bp_commands, py_gui. rewrite Hg.
    simpl. rewrite (moves_suppressed inner) by done. simpl. reflexivity.
  - simpl. by rewrite Hs.
Qed.

(** Outside such a window a move between two slots is reported. *)
Lemma move_observed (s : session) (g : GuiThread) (this other : Z) :
  move_bp_enabled s = true →
  gui s = Some g →
  in_vec stride g this = true →
  in_vec stride g other = true →
  reach stride (At_move this other) s
  = (set_gui (set_messages
                (messages g ++ [Msg_move (ptr_diff stride other (base_addr g))
                                         (ptr_diff stride this (base_addr g))]) g) s,
     Resumed).
Proof.
  intros Hm Hg Ha Hb. simpl. rewrite Hm. unfold move_commands, py_gui.
  rewrite Hg, show_move_classify. unfold classify. by rewrite Ha, Hb.
Qed.
End Choreography.

Lemma swap_suppresses_moves_witness :
  ∃ s', execute 4 [At_swap 4096 4100; At_move 8000 4096; At_move_assign 4096 4100;
                   At_move_assign 4100 8000; At_return] sample_session = (s', Resumed)
        ∧ (messages <$> gui s') = Some [Msg_swap 0 1].
Proof.
  destruct (swap_suppresses_moves 4 sample_session sample 4096 4100
              [At_move 8000 4096; At_move_assign 4096 4100; At_move_assign 4100 8000])
    as (s' & E & Hg & _); [reflexivity..|].
  exists s'. split; [exact E|]. by rewrite Hg.
Defined.

Lemma swap_involution_witness :
  ∃ self1, _perform_swap 0 (-1) sample = Returns () self1
           ∧ _perform_swap 0 (-1) self1 = Returns () sample.
Proof. apply (proj1 (swap_involution sample 0 (-1))). reflexivity. Defined.

(** ** More on the front end *)
Section FrontEndMore.
Variable stride : positive.

Lemma ptr_diff_in_vec (self : GuiThread) (p : Z) :
  in_vec stride self p = true →
  0 <= ptr_diff stride p (base_addr self) < size self
  ∧ ptr_add stride (base_addr self) (ptr_diff stride p (base_addr self)) <= p
    < ptr_add stride (base_addr self) (ptr_diff stride p (base_addr self) + 1).
Proof.
  intros H%in_vec_spec. rewrite ptr_diff_nonneg by lia. unfold ptr_add.
  set (d := p - base_addr self). set (w := Z.pos stride).
  assert (0 < w) by (unfold w; lia).
  pose proof (Z.div_mod d w ltac:(lia)) as Hdm.
  pose proof (Z.mod_pos_bound d w ltac:(lia)) as Hm.
  assert (0 <= d / w) by (apply Z.div_pos; lia).
  assert (d / w < size self) by (apply Z.div_lt_upper_bound; lia).
  lia.
Qed.

(** X1. When [show_move] returns it has queued exactly one message, at
    the end of the queue, and touched neither the slots nor the
    temporaries.  Every slot index in that message lies in [0, size) and
    is the index of the element whose bytes contain the address it was
    computed from; a token is the printed address of an operand outside
    the vector.  [show_move] never queues a [swap]. *)
Theorem show_move_slots_in_range (self self' : GuiThread) (a b : Z) :
  show_move stride a b self = Returns () self' →
  elements self' = elements self
  ∧ temp_elements self' = temp_elements self
  ∧ ∃ m, messages self' = messages self ++ [m]
         ∧ match m with
           | Msg_swap _ _ => False
           | Msg_move s d =>
               0 <= s < size self ∧ 0 <= d < size self
               ∧ ptr_add stride (base_addr self) s <= b < ptr_add stride (base_addr self) (s + 1)
               ∧ ptr_add stride (base_addr self) d <= a < ptr_add stride (base_addr self) (d + 1)
           | Msg_move_from_temp t d =>
               t = str b ∧ in_vec stride self b = false ∧ 0 <= d < size self
               ∧ ptr_add stride (base_addr self) d <= a < ptr_add stride (base_addr self) (d + 1)
           | Msg_move_to_temp s t =>
               t = str a ∧ in_vec stride self a = false ∧ 0 <= s < size self
               ∧ ptr_add stride (base_addr self) s <= b < ptr_add stride (base_addr self) (s + 1)
           end.
Proof.
  rewrite show_move_classify. unfold classify.
  destruct (in_vec stride self a) eqn:Ha; destruct (in_vec stride self b) eqn:Hb;
    simpl; intros H; try discriminate H; injection H as <-;
    (split; [done|]); (split; [done|]); (eexists; split; [reflexivity|]).
  - destruct (ptr_diff_in_vec _ _ Ha), (ptr_diff_in_vec _ _ Hb). split_and!; first [done|lia].
  - destruct (ptr_diff_in_vec _ _ Ha). split_and!; first [done|lia].
  - destruct (ptr_diff_in_vec _ _ Hb). split_and!; first [done|lia].
Qed.

(** X2. For two operands inside the vector [show_swap] queues a [swap]
    whose indices both lie in [0, size), each the index of the element
    that contains the operand's address. *)
Theorem show_swap_in_vec (self : GuiThread) (a b : Z) :
  in_vec stride self a = true →
  in_vec stride self b = true →
  ∃ i j, show_swap stride a b self
         = Returns () (set_messages (messages self ++ [Msg_swap i j]) self)
         ∧ 0 <= i < size self ∧ 0 <= j < size self
         ∧ ptr_add stride (base_addr self) i <= a < ptr_add stride (base_addr self) (i + 1)
         ∧ ptr_add stride (base_addr self) j <= b < ptr_add stride (base_addr self) (j + 1).
Proof.
  intros Ha Hb.
  exists (ptr_diff stride a (base_addr self)), (ptr_diff stride b (base_addr self)).
  split; [reflexivity|].
  destruct (ptr_diff_in_vec _ _ Ha), (ptr_diff_in_vec _ _ Hb). split_and!; lia.
Qed.
End FrontEndMore.

Lemma show_move_slots_in_range_witness :
  ∃ m, messages (final (show_move 4 4107 8000 sample)) = [m] ∧ m = Msg_move_from_temp "0x1f40" 2.
Proof.
  destruct (show_move_slots_in_range 4 sample (final (show_move 4 4107 8000 sample)) 4107 8000)
    as (_ & _ & m & Hm & _); [reflexivity|].
  exists m. split; [exact Hm|]. simpl in Hm. by injection Hm as <-.
Defined.

Lemma show_swap_in_vec_witness :
  ∃ i j, show_swap 4 4097 4111 sample
         = Returns () (set_messages [Msg_swap i j] sample) ∧ 0 <= i < 4 ∧ 0 <= j < 4.
Proof.
  destruct (show_swap_in_vec 4 sample 4097 4111) as (i & j & E & Hi & Hj & _);
    [reflexivity..|].
  by exists i, j.
Defined.

(** ** More on the back end *)

Lemma position_lookup {A} (l : list A) i n :
  PyList.position (length l) i = Some n → ∃ x, l !! n = Some x.
Proof. intros H%position_lt. by apply lookup_lt_is_Some_2. Qed.

Lemma slot_eq self i :
  slot self i = n ← PyList.position (length (elements self)) i; elements self !! n.
Proof. reflexivity. Qed.

Lemma dispatch_eq m self : dispatch m self = dispatch_result m self.
Proof.
  destruct m as [a b|a b|k b|a k]; unfold dispatch_result.
  - destruct (PyList.position (length (elements self)) a) as [na|] eqn:Ha.
    2:{ unfold dispatch, _perform_swap, mbind, method_bind.
        by rewrite elements_get_eq, slot_eq, Ha. }
    destruct (PyList.position (length (elements self)) b) as [nb|] eqn:Hb.
    2:{ unfold dispatch, _perform_swap, mbind, method_bind.
        rewrite elements_get_eq, slot_eq, Ha. simpl.
        destruct (position_lookup _ _ _ Ha) as [x ->].
        by rewrite elements_get_eq, slot_eq, Hb. }
    destruct (position_lookup _ _ _ Ha) as [x Hx].
    destruct (position_lookup _ _ _ Hb) as [y Hy].
    rewrite Hx, Hy.
    destruct x as [ea|], y as [eb|]; [by eapply dispatch_swap|..];
      unfold dispatch, _perform_swap, mbind, method_bind;
      rewrite elements_get_eq, slot_eq, Ha; simpl; rewrite Hx;
      rewrite elements_get_eq, slot_eq, Hb; simpl; by rewrite Hy.
  - destruct (PyList.position (length (elements self)) a) as [na|] eqn:Ha.
    2:{ unfold dispatch, mbind, method_bind.
        by rewrite elements_get_eq, slot_eq, Ha. }
    destruct (position_lookup _ _ _ Ha) as [x Hx].
    destruct (PyList.position (length (elements self)) b) as [nb|] eqn:Hb.
    + rewrite Hx. by eapply dispatch_move.
    + unfold dispatch, mbind, method_bind.
      rewrite elements_get_eq, slot_eq, Ha. simpl. rewrite Hx.
      by rewrite elements_set_eq, Hb.
  - destruct (temp_elements self !! k) as [[pos e]|] eqn:Hk.
    2:{ by apply dispatch_move_from_temp_missing. }
    destruct (PyList.position (length (elements self)) b) as [nb|] eqn:Hb.
    + by eapply dispatch_move_from_temp.
    + unfold dispatch. method_unfold. rewrite Hk. method_unfold.
      rewrite elements_set_eq. simpl. by rewrite Hb.
  - destruct (PyList.position (length (elements self)) a) as [na|] eqn:Ha.
    + destruct (position_lookup _ _ _ Ha) as [x Hx]. rewrite Hx.
      by eapply dispatch_move_to_temp.
    + unfold dispatch. method_unfold.
      destruct (temp_elements self !! k) as [[pos e]|] eqn:Hk; method_unfold;
        rewrite ?Hk; method_unfold; by rewrite elements_get_eq, slot_eq, Ha.
Qed.

Lemma position_in_range len i :
  0 <= i < Z.of_nat len → PyList.position len i = Some (Z.to_nat i).
Proof. intros H. unfold PyList.position. by rewrite bool_decide_eq_true_2. Qed.

Lemma live_slots_move (l : list (option AnimProxy)) na nb e y :
  l !! na = Some e → l !! nb = Some y →
  (live_slots (<[na:=None]> (<[nb:=e]> l)) + weight y = live_slots l)%nat.
Proof.
  intros Ha Hb.
  pose proof (live_slots_insert l nb e y Hb) as E1.
  assert (<[nb:=e]> l !! na = Some e) as Hx.
  { destruct (decide (nb = na)) as [->|Hne].
    - apply list_lookup_insert_eq. by eapply lookup_lt_Some.
    - by rewrite list_lookup_insert_ne. }
  pose proof (live_slots_insert _ na None e Hx) as E2.
  change (weight None) with 0%nat in E2. lia.
Qed.

Lemma live_slots_swap (l : list (option AnimProxy)) na nb ea eb :
  l !! na = Some (Some ea) → l !! nb = Some (Some eb) →
  live_slots (<[nb:=Some ea]> (<[na:=Some eb]> l)) = live_slots l.
Proof.
  intros Ha Hb.
  pose proof (live_slots_insert l na (Some eb) _ Ha) as E1.
  assert (∃ x, <[na:=Some eb]> l !! nb = Some (Some x)) as [x Hx].
  { destruct (decide (na = nb)) as [->|Hne].
    - exists eb. apply list_lookup_insert_eq. by eapply lookup_lt_Some.
    - exists eb. by rewrite list_lookup_insert_ne. }
  pose proof (live_slots_insert _ nb (Some ea) _ Hx) as E2.
  simpl in *. lia.
Qed.

(** The model never gains an element. *)
Lemma held_dispatch_le m self : (held (final (dispatch m self)) ≤ held self)%nat.
Proof.
  rewrite dispatch_eq. unfold held.
  destruct m as [a b|a b|k b|a k]; unfold dispatch_result.
  - destruct (PyList.position _ a) as [na|] eqn:Ha; [|done].
    destruct (PyList.position _ b) as [nb|] eqn:Hb; [|done].
    destruct (elements self !! na) as [[ea|]|] eqn:Hx; try done.
    destruct (elements self !! nb) as [[eb|]|] eqn:Hy; try done.
    simpl. by rewrite (live_slots_swap _ _ _ _ _ Hx Hy).
  - destruct (PyList.position _ a) as [na|] eqn:Ha; [|done].
    destruct (PyList.position _ b) as [nb|] eqn:Hb; [|done].
    destruct (position_lookup _ _ _ Ha) as [x Hx].
    destruct (position_lookup _ _ _ Hb) as [y Hy].
    rewrite Hx. simpl.
    pose proof (live_slots_move _ _ _ _ _ Hx Hy). lia.
  - destruct (temp_elements self !! k) as [[pos e]|] eqn:Hk; [|done].
    pose proof (live_temps_insert (temp_elements self) k pos None) as E2.
    rewrite Hk in E2. change (weight None) with 0%nat in E2.
    destruct (PyList.position _ b) as [nb|] eqn:Hb; simpl.
    + destruct (position_lookup _ _ _ Hb) as [y Hy].
      pose proof (live_slots_insert _ _ e _ Hy) as E1.
      destruct e; simpl in *; lia.
    + destruct e; simpl in *; lia.
  - destruct (PyList.position _ a) as [na|] eqn:Ha; [|done].
    destruct (position_lookup _ _ _ Ha) as [x Hx]. rewrite Hx. simpl.
    pose proof (live_slots_insert _ _ None _ Hx) as E1.
    change (weight None) with 0%nat in E1.
    match goal with |- context [<[k:=(?p, x)]> _] =>
      pose proof (live_temps_insert (temp_elements self) k p x) as E2 end.
    set (X := live_temps (<[k:=_]> _)) in *. clearbody X. lia.
Qed.

Lemma keeps_assign (P : GuiThread → Prop) f :
  (∀ self, P self → P (f self)) → keeps P (assign f).
Proof. intros H self HP. by apply H. Qed.

Lemma keeps_check_for_messages (P : GuiThread → Prop) :
  (∀ q self, P self → P (set_messages q self)) →
  (∀ m, keeps P (dispatch m)) →
  keeps P _check_for_messages.
Proof.
  intros Hq Hd. unfold _check_for_messages.
  apply keeps_bind; [apply keeps_attr|]. intros [|m rest]; [apply keeps_ret|].
  apply keeps_bind; [apply keeps_assign; auto|]. intros _. apply Hd.
Qed.

Lemma keeps_poll (P : GuiThread → Prop) n :
  (∀ q self, P self → P (set_messages q self)) →
  (∀ m, keeps P (dispatch m)) →
  keeps P (poll n).
Proof.
  intros Hq Hd. induction n as [|n IH]; [apply keeps_ret|].
  simpl. apply keeps_bind; [by apply keeps_check_for_messages|]. by intros _.
Qed.

(** X6. The back end never gains an element: whatever the message and
    whether its handling returns or raises, and after any number of
    ticks of the poll timer, the occupied slots and element-holding
    temporaries are at most as many as before. *)
Theorem held_never_increases (n : nat) (self : GuiThread) :
  (held (final (poll n self)) ≤ held self)%nat
  ∧ ∀ m, (held (final (dispatch m self)) ≤ held self)%nat.
Proof.
  split; [|intros; apply held_dispatch_le].
  apply (keeps_poll (λ s, (held s ≤ held self)%nat) n); [done| |done].
  intros m s Hs. pose proof (held_dispatch_le m s). lia.
Qed.

Lemma keeps_same_shape_dispatch self0 m : keeps (same_shape self0) (dispatch m).
Proof.
  intros self (Hl & Hb & Hs & Hv). rewrite dispatch_eq.
  destruct m; unfold dispatch_result; repeat case_match; unfold same_shape; simpl;
    rewrite ?length_insert; auto.
Qed.

(** X5. Any number of ticks of the poll timer, with any messages queued
    and whether or not one of them raises, leaves the number of slots,
    [base_addr], [size] and [values] as they were. *)
Theorem poll_keeps_shape (n : nat) (self : GuiThread) :
  length (elements (final (poll n self))) = length (elements self)
  ∧ base_addr (final (poll n self)) = base_addr self
  ∧ size (final (poll n self)) = size self
  ∧ values (final (poll n self)) = values self.
Proof.
  apply (keeps_poll (same_shape self) n); [done| |done].
  intros. apply keeps_same_shape_dispatch.
Qed.

(** X8. A [move_from_temp] whose destination index is out of range,
    and not so large that the coordinate [20 + 20*b] of the point built
    for the animation leaves the range of a C double, raises
    [IndexError] only after the entry of the token has been emptied: the
    slots are as before, the entry keeps its position but holds nothing,
    and the element it held is in the model no more. *)
Theorem move_from_temp_bad_index (self : GuiThread) (k : string) (b : Z)
    (pos : QPointF) (e : AnimProxy) :
  temp_elements self !! k = Some (pos, Some e) →
  in_range self b = false →
  fits_double (20 + 20 * b) →
  dispatch (Msg_move_from_temp k b) self
  = Raises IndexError (set_temp_elements (<[k:=(pos, None)]> (temp_elements self)) self)
  ∧ held (final (dispatch (Msg_move_from_temp k b) self)) = pred (held self)
  ∧ (0 < held self)%nat.
Proof.
  intros Hk Hb _.
  assert (PyList.position (length (elements self)) b = None) as Hp.
  { destruct (PyList.position _ b) as [nb|] eqn:E; [|done].
    destruct (position_lookup _ _ _ E) as [x Hx].
    unfold in_range in Hb. apply bool_decide_eq_false in Hb.
    exfalso. apply Hb. exists x. apply slot_Some. eauto. }
  rewrite dispatch_eq. unfold dispatch_result. rewrite Hk, Hp. simpl.
  split; [done|]. unfold held. simpl.
  pose proof (live_temps_insert (temp_elements self) k pos None) as E2.
  rewrite Hk in E2. simpl in E2. lia.
Qed.

(** ** The temporaries *)

Lemma keeps_placed_dispatch k pos m : keeps (placed k pos) (dispatch m).
Proof.
  intros self [e He]. rewrite dispatch_eq. unfold placed.
  destruct m as [a b|a b|t b|a t]; unfold dispatch_result;
    repeat case_match; simplify_eq/=; eauto.
  all: destruct (decide (t = k)) as [->|Hne];
    [rewrite lookup_insert_eq; simplify_eq; eauto
    |rewrite lookup_insert_ne by done; eauto].
Qed.

(** X9. An entry of [temp_elements] is never removed and never changes
    position: after any number of ticks the token is still a key, at
    the position it had. *)
Theorem temp_entry_persists (n : nat) (self : GuiThread) (k : string)
    (pos : QPointF) (e : option AnimProxy) :
  temp_elements self !! k = Some (pos, e) →
  ∃ e', temp_elements (final (poll n self)) !! k = Some (pos, e').
Proof.
  intros He.
  apply (keeps_poll (placed k pos) n); [done| |by exists e].
  intros. apply keeps_placed_dispatch.
Qed.

Lemma temp_inv_empty : temp_inv ∅.
Proof. intros k pos e H. by rewrite lookup_empty in H. Qed.

Lemma temp_inv_update t k pos e0 e :
  temp_inv t → t !! k = Some (pos, e0) → temp_inv (<[k:=(pos, e)]> t).
Proof.
  intros Hinv Hk k1 pos1 e1 H1.
  rewrite map_size_insert_Some by eauto.
  assert (∃ x, t !! k1 = Some (pos1, x)) as [x Hx].
  { destruct (decide (k = k1)) as [->|Hne].
    - rewrite lookup_insert_eq in H1. simplify_eq. eauto.
    - rewrite lookup_insert_ne in H1 by done. eauto. }
  destruct (Hinv _ _ _ Hx) as [Hi Hu]. split; [done|].
  intros k2 e2 H2. destruct (decide (k = k2)) as [->|Hne].
  - rewrite lookup_insert_eq in H2. simplify_eq. by eapply Hu.
  - rewrite lookup_insert_ne in H2 by done. by eapply Hu.
Qed.

Lemma temp_inv_new t k e :
  temp_inv t → t !! k = None →
  temp_inv (<[k:=((20 + 20 * Z.of_nat (len t), 60), e)]> t).
Proof.
  intros Hinv Hk k1 pos1 e1 H1.
  rewrite map_size_insert_None by done.
  destruct (decide (k = k1)) as [->|Hne].
  - rewrite lookup_insert_eq in H1. simplify_eq. split; [exists (len t); split; [lia|done]|].
    intros k2 e2 H2. destruct (decide (k1 = k2)) as [->|Hne]; [done|].
    rewrite lookup_insert_ne in H2 by done.
    destruct (Hinv _ _ _ H2) as [(i & Hi & Hpos) _]. simplify_eq. lia.
  - rewrite lookup_insert_ne in H1 by done.
    destruct (Hinv _ _ _ H1) as [(i & Hi & Hpos) Hu].
    split; [exists i; split; [lia|done]|].
    intros k2 e2 H2. destruct (decide (k = k2)) as [->|Hne2].
    + rewrite lookup_insert_eq in H2. simplify_eq. lia.
    + rewrite lookup_insert_ne in H2 by done. by eapply Hu.
Qed.

Lemma keeps_temp_inv_dispatch m : keeps (λ s, temp_inv (temp_elements s)) (dispatch m).
Proof.
  intros self Hinv. rewrite dispatch_eq.
  destruct m as [a b|a b|t b|a t]; unfold dispatch_result;
    repeat case_match; simplify_eq/=; eauto using temp_inv_update, temp_inv_new.
Qed.

(** X10. From the model built by [run], after any number of ticks over
    any queue, two tokens with the same position are the same token,
    and every position is (20 + 20 i, 60) for some i below the number of
    entries. *)
Theorem temporaries_apart (stride : positive) (deref : Z → Z) (base sz : Z)
    (q : list message) (n : nat) (k k' : string) (pos : QPointF)
    (e e' : option AnimProxy) :
  let self := final (poll n (set_messages q (run (__init__ stride deref base sz)))) in
  temp_elements self !! k = Some (pos, e) →
  temp_elements self !! k' = Some (pos, e') →
  k = k' ∧ ∃ i : nat, (i < len (temp_elements self))%nat ∧ pos = (20 + 20 * Z.of_nat i, 60).
Proof.
  intros self Hk Hk'.
  assert (temp_inv (temp_elements self)) as Hinv.
  { apply (keeps_poll (λ s, temp_inv (temp_elements s)) n); [done| |apply temp_inv_empty].
    intros. apply keeps_temp_inv_dispatch. }
  destruct (Hinv _ _ _ Hk') as [Hi Hu]. split; [by eapply Hu|done].
Qed.

(** ** From the front end to the back end *)
Section Compose.
Variable stride : positive.

(** X3. A message that [show_move] has queued is handled without
    [IndexError] by a model with [size] slots: it returns, except for a
    [move_from_temp] whose token is not a key of [temp_elements], which
    raises [KeyError] and changes nothing. *)
Theorem emitted_move_dispatches (g g' h : GuiThread) (a b : Z) (m : message) :
  show_move stride a b g = Returns () g' →
  last (messages g') = Some m →
  length (elements h) = Z.to_nat (size g) →
  (∃ h', dispatch m h = Returns () h')
  ∨ (∃ dst, m = Msg_move_from_temp (str b) dst
            ∧ temp_elements h !! str b = None
            ∧ dispatch m h = Raises (KeyError (str b)) h).
Proof.
  intros Hshow Hlast Hlen.
  assert (∀ p, in_vec stride g p = true →
               PyList.position (length (elements h)) (ptr_diff stride p (base_addr g))
               = Some (Z.to_nat (ptr_diff stride p (base_addr g)))) as Hpos.
  { intros p [Hp _]%ptr_diff_in_vec. apply position_in_range. lia. }
  rewrite show_move_classify in Hshow. unfold classify in Hshow.
  destruct (in_vec stride g a) eqn:Ha; destruct (in_vec stride g b) eqn:Hb;
    simpl in Hshow; try discriminate Hshow; injection Hshow as <-;
    simpl in Hlast; rewrite last_snoc in Hlast; injection Hlast as <-;
    rewrite dispatch_eq; unfold dispatch_result; rewrite ?(Hpos _ Ha), ?(Hpos _ Hb).
  - left. eauto.
  - destruct (temp_elements h !! str b) as [[pos e]|] eqn:Hk.
    + left. eauto.
    + right. eauto.
  - left. eauto.
Qed.
End Compose.

Lemma emitted_move_dispatches_witness :
  ∃ h', dispatch (Msg_move_to_temp 2 "0x1f40") sample = Returns () h'.
Proof.
  destruct (emitted_move_dispatches 4 sample (final (show_move 4 8000 4107 sample))
              sample 8000 4107 (Msg_move_to_temp 2 "0x1f40"))
    as [H|(dst & Hm & _)]; [reflexivity..|exact H|discriminate Hm].
Defined.

(** ** What a move does to the slots *)
(** X7. A [move] between two indices in range always returns.  The
    source slot is then empty; the destination slot, when it is another
    slot, holds what the source held (whatever it held before is gone);
    all other slots, the temporaries and the queue are untouched.  A move
    of a slot onto itself therefore empties it. *)
Theorem dispatch_move_slots (self : GuiThread) (src dst : Z) (ns nd : nat) :
  PyList.position (length (elements self)) src = Some ns →
  PyList.position (length (elements self)) dst = Some nd →
  ∃ self', dispatch (Msg_move src dst) self = Returns () self'
           ∧ elements self' !! ns = Some None
           ∧ (nd ≠ ns → elements self' !! nd = elements self !! ns)
           ∧ (∀ n, n ≠ ns → n ≠ nd → elements self' !! n = elements self !! n)
           ∧ temp_elements self' = temp_elements self
           ∧ messages self' = messages self.
Proof.
  intros Hs Hd. rewrite dispatch_eq. unfold dispatch_result. rewrite Hs, Hd.
  destruct (position_lookup _ _ _ Hs) as [x Hx]. rewrite Hx. simpl.
  pose proof (position_lt _ _ _ Hs). pose proof (position_lt _ _ _ Hd).
  eexists. split; [done|]. simpl. split_and!; try done.
  - apply list_lookup_insert_eq. by rewrite length_insert.
  - intros Hne. rewrite list_lookup_insert_ne by done.
    by rewrite list_lookup_insert_eq.
  - intros n H1 H2. by rewrite !list_lookup_insert_ne.
Qed.

Lemma dispatch_move_slots_witness :
  ∃ self', dispatch (Msg_move 1 (-3)) sample = Returns () self'
           ∧ slot_values self' = [Some 3; None; Some 4; Some 2].
Proof.
  destruct (dispatch_move_slots sample 1 (-3) 1 1) as (self' & E & _); [reflexivity..|].
  exists self'. split; [exact E|]. revert E. vm_compute. by intros [= <-].
Defined.

(** ** The snapshot *)
Section Snapshot.
Variable stride : positive.

(** X4. The model built by [__init__] and [run] for [base] and [sz] has
    [sz] slots (none when [sz] is negative), no temporary and an empty
    queue; slot [i] holds the proxy made at index [i] for the [int] read
    at the address of element [i], and index [i - sz] names the same
    slot. *)
Theorem run_init_slots (deref : Z → Z) (base sz : Z) :
  let self := run (__init__ stride deref base sz) in
  length (elements self) = Z.to_nat sz
  ∧ temp_elements self = ∅
  ∧ messages self = []
  ∧ held self = Z.to_nat sz
  ∧ ∀ i, 0 <= i < sz →
      slot self i = Some (Some {| elt_idx := i; elt_value := deref (base + i * Z.pos stride) |})
      ∧ slot self (i - sz) = slot self i.
Proof.
  cbv zeta. split_and!; try done.
  - simpl. by rewrite length_imap, length_fmap, length_seqZ.
  - apply held_run.
  - intros i Hi.
    assert (length (elements (run (__init__ stride deref base sz))) = Z.to_nat sz) as Hlen
      by (simpl; by rewrite length_imap, length_fmap, length_seqZ).
    assert (slot (run (__init__ stride deref base sz)) i
            = Some (Some {| elt_idx := i; elt_value := deref (base + i * Z.pos stride) |})) as Hslot.
    { apply slot_Some. exists (Z.to_nat i). split.
      - apply position_in_range. lia.
      - simpl. rewrite list_lookup_imap, list_lookup_fmap.
        rewrite (lookup_seqZ_lt 0 sz (Z.to_nat i)) by lia. simpl.
        unfold ptr_add. rewrite Z.add_0_l, Z2Nat.id by lia. done. }
    split; [done|]. rewrite Hslot.
    apply slot_Some. apply slot_Some in Hslot as (n & Hn & Hl).
    exists n. split; [|done].
    rewrite Hlen in *. unfold PyList.position in *.
    rewrite bool_decide_eq_true_2 in Hn by lia. simplify_eq.
    rewrite bool_decide_eq_false_2 by lia. rewrite bool_decide_eq_true_2 by lia.
    f_equal. lia.
Qed.
End Snapshot.

Lemma run_init_slots_witness :
  slot sample 3 = Some (Some {| elt_idx := 3; elt_value := 2 |})
  ∧ slot sample (-1) = slot sample 3.
Proof.
  apply (proj2 (proj2 (proj2 (proj2 (run_init_slots 4 sample_memory 4096 4)))) 3). lia.
Defined.

(** ** More on the breakpoints *)

Section ChoreographyMore.
Variable stride : positive.

Lemma show_move_outcome a b g :
  (∃ g', show_move stride a b g = Returns () g')
  ∨ show_move stride a b g = Raises temp_to_temp g.
Proof.
  rewrite show_move_classify. unfold classify.
  destruct (in_vec stride g a), (in_vec stride g b); simpl; eauto.
Qed.

Lemma reach_inv l s :
  session_inv s →
  session_inv (reach stride l s).1
  ∧ ∀ e, (reach stride l s).2 = Failed e → e = temp_to_temp.
Proof.
  intros Hs. pose proof Hs as (Hsort & Hmoves & Hfbps & Hgui).
  assert (∀ this other,
            move_bp_enabled s = true →
            session_inv (move_commands stride this other s).1
            ∧ ∀ e, (move_commands stride this other s).2 = Failed e → e = temp_to_temp)
    as Hmove.
  { intros this other Hen.
    destruct Hgui as [->|[[g Hg] Hswap]]; [done|].
    unfold move_commands, py_gui. rewrite Hg.
    destruct (show_move_outcome this other g) as [[g' ->]| ->]; simpl.
    - split; [|done]. split_and!; eauto.
    - split; [|by intros e [= <-]]. split_and!; eauto. }
  destruct l as [a b|this other|this other|start finish deref|]; simpl.
  - destruct (swap_bp_enabled s) eqn:Hswap; [|done].
    destruct Hgui as [->|[[g Hg] _]]; [done|].
    unfold swap_bp_commands, py_gui. rewrite Hg. simpl.
    split; [|done]. split_and!; simpl; eauto.
  - destruct (move_bp_enabled s) eqn:Hen; [by apply Hmove|done].
  - destruct (move_assign_bp_enabled s) eqn:Hen; [|done].
    apply Hmove. congruence.
  - rewrite Hsort. unfold sort_bp_commands, py_gui. simpl.
    split; [|done]. split_and!; simpl; eauto.
  - destruct (finish_bps s) as [|f rest] eqn:Hf; [done|].
    apply Forall_cons in Hfbps as [Hhd Htl].
    destruct Hgui as [->|Hgui]; [done|].
    destruct Hhd as [-> | ->]; simpl; (split; [|done]); by split_and!; simpl; eauto.
Qed.

Lemma execute_inv trace s :
  session_inv s →
  session_inv (execute stride trace s).1
  ∧ ∀ e, (execute stride trace s).2 = Failed e → e = temp_to_temp.
Proof.
  revert s. induction trace as [|l trace IH]; intros s Hs; [done|].
  simpl. destruct (reach_inv l s Hs) as [Hinv Hfail].
  destruct (reach stride l s) as [s' [| |e]]; simpl in *; by eauto.
Qed.

Lemma session_inv_loaded : session_inv loaded.
Proof. split_and!; by eauto. Qed.

(** X12. Whatever the traced program does from the moment the module is
    loaded: the sort breakpoint stays enabled, the two move breakpoints
    are enabled or disabled together, the session is as loaded until
    [gui] exists and the swap breakpoint is enabled once it does, and a
    script can only fail with the exception of [show_move]; in particular
    no script calls a method of [gui] before [gui] is assigned. *)
Theorem sites_invariant (trace : list location) :
  let s := (execute stride trace loaded).1 in
  sort_bp_enabled s = true
  ∧ move_bp_enabled s = move_assign_bp_enabled s
  ∧ (gui s = None → s = loaded)
  ∧ (is_Some (gui s) → swap_bp_enabled s = true)
  ∧ ∀ e, (execute stride trace loaded).2 = Failed e → e = temp_to_temp.
Proof.
  destruct (execute_inv trace loaded session_inv_loaded)
    as [(Hsort & Hmoves & _ & Hgui) Hfail].
  cbv zeta. split_and!; try done.
  - intros Hnone. destruct Hgui as [?|[[g Hg] _]]; [done|congruence].
  - intros Hsome. destruct Hgui as [E|[_ ?]]; [|done].
    rewrite E in Hsome. by destruct Hsome.
Qed.

(** X11. Before [std::sort] is entered nothing is observed: any calls of
    [swap], of the move constructor and of the move assignment operator,
    and any returns, leave the session as loaded and the program
    running. *)
Theorem nothing_before_sort (trace : list location) :
  forallb (λ l, negb (is_sort_hit l)) trace = true →
  execute stride trace loaded = (loaded, Resumed).
Proof.
  induction trace as [|l trace IH]; [done|].
  simpl. intros [Hl Htr]%andb_true_iff. destruct l; try done; by apply IH.
Qed.

Lemma swap_episode_exec (a b : Z) (inner rest : list location) (s : session) (g : GuiThread) :
  swap_bp_enabled s = true →
  gui s = Some g →
  forallb is_move_hit inner = true →
  execute stride (swap_episode (a, b, inner) ++ rest) s
  = execute stride rest
      {| swap_bp_enabled := true; move_bp_enabled := true;
         move_assign_bp_enabled := true; sort_bp_enabled := sort_bp_enabled s;
         finish_bps := finish_bps s;
         gui := Some (set_messages
                        (messages g ++ [Msg_swap (ptr_diff stride a (base_addr g))
                                                 (ptr_diff stride b (base_addr g))]) g) |}.
Proof.
  intros Hs Hg Hin. unfold swap_episode. simpl. rewrite Hs.
  unfold swap_bp_commands, py_gui. rewrite Hg. simpl.
  rewrite <- app_assoc. rewrite (moves_suppressed stride inner) by done.
  simpl. f_equal. unfold set_enabled, set_finish_bps, set_gui. simpl. by rewrite Hs.
Qed.

Lemma swap_episodes_exec (eps : list (Z * Z * list location)) (rest : list location)
    (s : session) (g : GuiThread) :
  swap_bp_enabled s = true →
  move_bp_enabled s = true →
  move_assign_bp_enabled s = true →
  gui s = Some g →
  Forall (λ ep, forallb is_move_hit ep.2 = true) eps →
  execute stride (concat (swap_episode <$> eps) ++ rest) s
  = execute stride rest
      {| swap_bp_enabled := true; move_bp_enabled := true;
         move_assign_bp_enabled := true; sort_bp_enabled := sort_bp_enabled s;
         finish_bps := finish_bps s;
         gui := Some (set_messages
                        (messages g ++
                           ((λ ep, Msg_swap (ptr_diff stride ep.1.1 (base_addr g))
                                            (ptr_diff stride ep.1.2 (base_addr g))) <$> eps))
                        g) |}.
Proof.
  intros Hs Hm Hma Hg Heps. revert s g Hs Hm Hma Hg.
  induction Heps as [|[[a b] inner] eps Hep Heps IH]; intros s g Hs Hm Hma Hg.
  - simpl. rewrite app_nil_r. f_equal. destruct s, g; simpl in *; by subst.
  - change (concat (swap_episode <$> (a, b, inner) :: eps))
      with (swap_episode (a, b, inner) ++ concat (swap_episode <$> eps)).
    rewrite <- app_assoc.
    rewrite (swap_episode_exec a b inner _ s g) by done.
    erewrite IH; [|reflexivity..]. simpl.
    by rewrite <- app_assoc.
Qed.

(** X13. A [std::sort] that consists of calls of [swap], each with
    moves inside: the program is stopped at the return of [std::sort]
    with the three breakpoints enabled, no finish breakpoint left, and in
    the queue of the model built on entry one [swap] message per call,
    in the order of the calls, and nothing else. *)
Theorem sort_of_swaps (start finish : Z) (deref : Z → Z)
    (eps : list (Z * Z * list location)) :
  Forall (λ ep, forallb is_move_hit ep.2 = true) eps →
  execute stride (At_sort start finish deref :: concat (swap_episode <$> eps) ++ [At_return])
    loaded
  = ({| swap_bp_enabled := true; move_bp_enabled := true;
        move_assign_bp_enabled := true; sort_bp_enabled := true;
        finish_bps := [];
        gui := Some (set_messages
                       ((λ ep, Msg_swap (ptr_diff stride ep.1.1 start)
                                        (ptr_diff stride ep.1.2 start)) <$> eps)
                       (run (__init__ stride deref start (ptr_diff stride finish start)))) |},
     Stopped).
Proof.
  intros Heps. simpl.
  erewrite swap_episodes_exec; [|reflexivity..|done]. reflexivity.
Qed.
End ChoreographyMore.

Lemma nothing_before_sort_witness :
  execute 4 [At_swap 4096 4100; At_move 4096 8000; At_return] loaded = (loaded, Resumed).
Proof. apply (nothing_before_sort 4). reflexivity. Defined.

Lemma sort_of_swaps_witness :
  ∃ s, execute 4 [At_sort 4096 4112 sample_memory;
                  At_swap 4096 4104; At_move 8000 4096; At_return;
                  At_swap 4100 4108; At_return; At_return] loaded = (s, Stopped)
       ∧ (messages <$> gui s) = Some [Msg_swap 0 2; Msg_swap 1 3].
Proof.
  eexists. split.
  - apply (sort_of_swaps 4 4096 4112 sample_memory
             [(4096, 4104, [At_move 8000 4096]); (4100, 4108, [])]).
    repeat constructor.
  - reflexivity.
Defined.

Lemma move_from_temp_bad_index_witness :
  held (final (dispatch (Msg_move_from_temp "t1" 7)
                 (final (dispatch (Msg_move_to_temp 3 "t1") sample)))) = 3%nat.
Proof.
  destruct (move_from_temp_bad_index
              (final (dispatch (Msg_move_to_temp 3 "t1") sample)) "t1" 7 (20, 60)
              {| elt_idx := 3; elt_value := 2 |})
    as (_ & Hheld & _); [reflexivity|reflexivity|split; reflexivity|].
  rewrite Hheld. vm_compute. reflexivity.
Defined.

Lemma temp_entry_persists_witness :
  ∃ e', temp_elements
          (final (poll 2 (set_messages [Msg_move_from_temp "t1" 3; Msg_move_to_temp 0 "t1"]
                            (final (dispatch (Msg_move_to_temp 3 "t1") sample)))))
        !! "t1" = Some ((20, 60), e').
Proof.
  apply (temp_entry_persists 2
           (set_messages [Msg_move_from_temp "t1" 3; Msg_move_to_temp 0 "t1"]
              (final (dispatch (Msg_move_to_temp 3 "t1") sample)))
           "t1" (20, 60) (Some {| elt_idx := 3; elt_value := 2 |})).
  reflexivity.
Defined.

Lemma temporaries_apart_witness :
  "t2" = "t2" ∧ ∃ i : nat, (i < 2)%nat ∧ (40, 60) = (20 + 20 * Z.of_nat i, 60).
Proof.
  apply (temporaries_apart 4 sample_memory 4096 4
           [Msg_move_to_temp 3 "t1"; Msg_move_to_temp 2 "t2"] 2 "t2" "t2" (40, 60)
           (Some {| elt_idx := 2; elt_value := 4 |})
           (Some {| elt_idx := 2; elt_value := 4 |})); reflexivity.
Defined.

Lemma sites_invariant_witness :
  swap_bp_enabled (execute 4 [At_sort 4096 4112 sample_memory; At_swap 4096 4100] loaded).1
  = true.
Proof.
  apply (proj1 (proj2 (proj2 (proj2
           (sites_invariant 4 [At_sort 4096 4112 sample_memory; At_swap 4096 4100]))))).
  by eexists.
Defined.

(** ** The debugger commands *)

Lemma Block_chain_ind (P : Block → Prop) :
  (∀ f s e sb, (∀ b, sb = Some b → P b) → P (Build_Block f s e sb)) →
  ∀ b, P b.
Proof.
  intros H. fix IH 1. intros [f s e [b'|]]; apply H; intros b Heq.
  - injection Heq as <-. apply IH.
  - discriminate Heq.
Qed.

Lemma at_address_inj a a' : at_address a = at_address a' → a = a'.
Proof. unfold at_address. simpl. intros [= H]. by apply pretty_Z_inj in H. Qed.

Section Scan.
Variable mnemonic : string.
Variable scan : list Instruction → list string.
Hypothesis scan_nil : scan [] = [].
Hypothesis scan_cons : ∀ i rest,
  scan (i :: rest)
  = if startswith (asm i) mnemonic then at_address (addr i) :: scan rest else scan rest.

Lemma elem_of_scan a l :
  at_address a ∈ scan l ↔
  ∃ i, i ∈ l ∧ addr i = a ∧ startswith (asm i) mnemonic = true.
Proof.
  induction l as [|i l IH].
  - rewrite scan_nil. split; [by intros ?%elem_of_nil|].
    by intros (i & ?%elem_of_nil & _).
  - rewrite scan_cons. destruct (startswith (asm i) mnemonic) eqn:E.
    + rewrite elem_of_cons, IH. split.
      * intros [Ha%at_address_inj|(j & Hj & ? & ?)].
        -- exists i. split_and!; [left|done..].
        -- exists j. split_and!; [by right|done..].
      * intros (j & [->|Hj]%elem_of_cons & Ha & Hm).
        -- left. by rewrite Ha.
        -- right. eauto.
    + rewrite IH. split.
      * intros (j & Hj & ? & ?). exists j. split_and!; [by right|done..].
      * intros (j & [->|Hj]%elem_of_cons & Ha & Hm); [congruence|eauto].
Qed.

Lemma scan_filter l :
  scan l = (λ i, at_address (addr i))
             <$> filter (λ i, startswith (asm i) mnemonic = true) l.
Proof.
  induction l as [|i l IH]; [by rewrite scan_nil|].
  rewrite scan_cons, filter_cons.
  destruct (startswith (asm i) mnemonic) eqn:E.
  - rewrite decide_True by done. simpl. by rewrite IH.
  - rewrite decide_False by done. done.
Qed.

Lemma length_scan l :
  length (scan l) = length (filter (λ i, startswith (asm i) mnemonic = true) l).
Proof.
  induction l as [|i l IH]; [by rewrite scan_nil|].
  rewrite scan_cons, filter_cons.
  destruct (startswith (asm i) mnemonic) eqn:E.
  - rewrite decide_True by done. simpl. by rewrite IH.
  - rewrite decide_False by done. done.
Qed.
End Scan.

Lemma BreakReturn_function_block block :
  match BreakReturn.function_block block with
  | Some fb =>
      is_Some (block_function fb)
      ∧ (is_Some (block_function block) → fb = block)
      ∧ ∃ n : nat, enclosing block !! n = Some fb
                   ∧ ∀ (m : nat) b, (m < n)%nat → enclosing block !! m = Some b →
                                    block_function b = None
  | None => Forall (λ b, block_function b = None) (enclosing block)
  end.
Proof.
  induction block as [f s e sb IH] using Block_chain_ind. simpl.
  destruct f as [f|]; simpl.
  { split_and!; [by eauto|done|]. exists 0%nat. split; [done|]. intros; lia. }
  destruct sb as [b|]; [|by repeat constructor].
  specialize (IH b eq_refl). destruct (BreakReturn.function_block b) as [fb|].
  - destruct IH as (Hf & _ & n & Hn & Hbefore).
    split_and!; [done|by intros [? ?]|].
    exists (S n). split; [done|].
    intros [|m] b' Hm Hb'; simpl in Hb'; [by simplify_eq|].
    apply (Hbefore m); [lia|done].
  - by constructor.
Qed.

(** X14. [break-return] raises [AttributeError], having set no
    breakpoint, exactly when neither the block of the frame nor any
    block around it has a function.  Otherwise it takes the innermost of
    these blocks that has a function (every block inside it has none; it
    is the frame's own block when that has a function), disassembles its
    range from [start] to [end - 1], and sets a breakpoint at an address
    exactly when an instruction listed there starts with "retq ": one
    breakpoint for each, in the order of the listing, not only for the
    first. *)
Theorem break_return_breakpoints (disassemble : Z → Z → list Instruction) (block : Block) :
  match BreakReturn.invoke disassemble block with
  | inl e =>
      e = AttributeError
      ∧ block_function block = None
      ∧ Forall (λ b, block_function b = None) (enclosing block)
  | inr bps =>
      ∃ fb, BreakReturn.function_block block = Some fb
            ∧ is_Some (block_function fb)
            ∧ (is_Some (block_function block) → fb = block)
            ∧ (∃ n : nat, enclosing block !! n = Some fb
                          ∧ ∀ (m : nat) b, (m < n)%nat → enclosing block !! m = Some b →
                                           block_function b = None)
            ∧ bps = (λ i, at_address (addr i))
                      <$> filter (λ i, startswith (asm i) "retq " = true)
                            (disassemble (block_start fb) (block_end fb - 1))
            ∧ (∀ a, at_address a ∈ bps ↔
                    ∃ i, i ∈ disassemble (block_start fb) (block_end fb - 1)
                         ∧ addr i = a ∧ startswith (asm i) "retq " = true)
            ∧ length bps
              = length (filter (λ i, startswith (asm i) "retq " = true)
                          (disassemble (block_start fb) (block_end fb - 1)))
  end.
Proof.
  unfold BreakReturn.invoke.
  pose proof (BreakReturn_function_block block) as H.
  destruct (BreakReturn.function_block block) as [fb|].
  - destruct H as (Hf & Hsame & Hwalk). exists fb. split_and!; try done.
    + by apply (scan_filter "retq " BreakReturn.breakpoints).
    + intros a. by apply (elem_of_scan "retq " BreakReturn.breakpoints).
    + by apply (length_scan "retq " BreakReturn.breakpoints).
  - split_and!; [done| |done].
    destruct block as [f s0 e sb]. simpl in *. by apply Forall_cons in H as [? _].
Qed.

Lemma SwitchBreaker_function_block block :
  match SwitchBreaker.function_block block with
  | Some fb =>
      is_Some (block_function fb)
      ∧ (is_Some (block_function block) → fb = block)
      ∧ ∃ n : nat, enclosing block !! n = Some fb
                   ∧ ∀ (m : nat) b, (m < n)%nat → enclosing block !! m = Some b →
                                    block_function b = None
  | None => Forall (λ b, block_function b = None) (enclosing block)
  end.
Proof.
  induction block as [f s e sb IH] using Block_chain_ind. simpl.
  destruct f as [f|]; simpl.
  { split_and!; [by eauto|done|]. exists 0%nat. split; [done|]. intros; lia. }
  destruct sb as [b|]; [|by repeat constructor].
  specialize (IH b eq_refl). destruct (SwitchBreaker.function_block b) as [fb|].
  - destruct IH as (Hf & _ & n & Hn & Hbefore).
    split_and!; [done|by intros [? ?]|].
    exists (S n). split; [done|].
    intros [|m] b' Hm Hb'; simpl in Hb'; [by simplify_eq|].
    apply (Hbefore m); [lia|done].
  - by constructor.
Qed.

(** X16. [break-switch] raises [AttributeError], having set no
    breakpoint, exactly when neither the block of the frame nor any
    block around it has a function.  Otherwise it takes the innermost of
    these blocks that has a function, disassembles its range from
    [start] to [end - 1], and sets one breakpoint, in the order of the
    listing, for each instruction there that starts with "jmpq ". *)
Theorem break_switch_breakpoints (disassemble : Z → Z → list Instruction) (block : Block) :
  match SwitchBreaker.invoke disassemble block with
  | inl e =>
      e = AttributeError
      ∧ block_function block = None
      ∧ Forall (λ b, block_function b = None) (enclosing block)
  | inr bps =>
      ∃ fb, SwitchBreaker.function_block block = Some fb
            ∧ is_Some (block_function fb)
            ∧ (is_Some (block_function block) → fb = block)
            ∧ (∃ n : nat, enclosing block !! n = Some fb
                          ∧ ∀ (m : nat) b, (m < n)%nat → enclosing block !! m = Some b →
                                           block_function b = None)
            ∧ bps = (λ i, at_address (addr i))
                      <$> filter (λ i, startswith (asm i) "jmpq " = true)
                            (disassemble (block_start fb) (block_end fb - 1))
            ∧ (∀ a, at_address a ∈ bps ↔
                    ∃ i, i ∈ disassemble (block_start fb) (block_end fb - 1)
                         ∧ addr i = a ∧ startswith (asm i) "jmpq " = true)
            ∧ length bps
              = length (filter (λ i, startswith (asm i) "jmpq " = true)
                          (disassemble (block_start fb) (block_end fb - 1)))
  end.
Proof.
  unfold SwitchBreaker.invoke.
  pose proof (SwitchBreaker_function_block block) as H.
  destruct (SwitchBreaker.function_block block) as [fb|].
  - destruct H as (Hf & Hsame & Hwalk). exists fb. split_and!; try done.
    + by apply (scan_filter "jmpq " SwitchBreaker.breakpoints).
    + intros a. by apply (elem_of_scan "jmpq " SwitchBreaker.breakpoints).
    + by apply (length_scan "jmpq " SwitchBreaker.breakpoints).
  - split_and!; [done| |done].
    destruct block as [f s0 e sb]. simpl in *. by apply Forall_cons in H as [? _].
Qed.

Section ContinueReturnFacts.
Context {inferior : Type}.
Variable ni : inferior → inferior.
Variable is_valid : inferior → bool.
Variable asm_at_pc : inferior → string.

Lemma continue_return_steps (k : nat) : ∀ (fuel : nat) (st : inferior),
  (∀ j, (j ≤ k)%nat → is_valid (Nat.iter j ni st) = true) →
  (∀ j, (1 ≤ j ≤ k)%nat → startswith (asm_at_pc (Nat.iter j ni st)) "retq " = false) →
  startswith (asm_at_pc (Nat.iter (S k) ni st)) "retq " = true →
  (k < fuel)%nat →
  ContinueReturn.invoke inferior ni is_valid asm_at_pc fuel st
  = Some (Nat.iter (S k) ni st).
Proof.
  induction k as [|k IH]; intros fuel st Hvalid Hnot Hret Hfuel;
    (destruct fuel as [|fuel]; [lia|]); simpl.
  - pose proof (Hvalid 0%nat ltac:(lia)) as H0. simpl in H0, Hret.
    by rewrite H0, Hret.
  - pose proof (Hvalid 0%nat ltac:(lia)) as H0.
    pose proof (Hnot 1%nat ltac:(lia)) as H1. simpl in H0, H1.
    rewrite H0, H1.
    rewrite (IH fuel (ni st)); [by rewrite <- !Nat.iter_succ_r| | | |lia].
    + intros j Hj. rewrite <- Nat.iter_succ_r. apply Hvalid. lia.
    + intros j Hj. rewrite <- Nat.iter_succ_r. apply Hnot. lia.
    + by rewrite <- Nat.iter_succ_r.
Qed.

(** X15. [continue-return] does nothing when the thread is not valid.
    Otherwise it always steps at least once, also when the instruction
    at [pc] is already a return, and stops on the first instruction it
    steps to that starts with "retq ". *)
Theorem continue_return_stops (st : inferior) (k fuel : nat) :
  (is_valid st = false →
   ContinueReturn.invoke inferior ni is_valid asm_at_pc (S fuel) st = Some st)
  ∧ ((∀ j, (j ≤ k)%nat → is_valid (Nat.iter j ni st) = true) →
     (∀ j, (1 ≤ j ≤ k)%nat →
           startswith (asm_at_pc (Nat.iter j ni st)) "retq " = false) →
     startswith (asm_at_pc (Nat.iter (S k) ni st)) "retq " = true →
     (k < fuel)%nat →
     ContinueReturn.invoke inferior ni is_valid asm_at_pc fuel st
     = Some (Nat.iter (S k) ni st)).
Proof.
  split; [by intros H; simpl; rewrite H|]. apply continue_return_steps.
Qed.
End ContinueReturnFacts.

Lemma break_return_breakpoints_witness :
  BreakReturn.invoke sample_disassemble sample_block = inr ["*4198403"; "*4198405"]
  ∧ at_address 4198403 ∈ ["*4198403"; "*4198405"].
Proof.
  pose proof (break_return_breakpoints sample_disassemble sample_block) as H.
  assert (BreakReturn.invoke sample_disassemble sample_block
          = inr ["*4198403"; "*4198405"]) as E by reflexivity.
  rewrite E in H. destruct H as (fb & Hfb & _ & _ & _ & _ & Hin & _).
  split; [done|]. apply Hin. injection Hfb as <-.
  eexists {| addr := 4198403; asm := "retq   "; insn_length := 1 |}.
  split_and!; [|done..]. vm_compute. do 2 right. left.
Defined.

Lemma break_switch_breakpoints_witness :
  SwitchBreaker.invoke sample_disassemble sample_block = inr ["*4198401"]
  ∧ at_address 4198401 ∈ ["*4198401"].
Proof.
  pose proof (break_switch_breakpoints sample_disassemble sample_block) as H.
  assert (SwitchBreaker.invoke sample_disassemble sample_block = inr ["*4198401"])
    as E by reflexivity.
  rewrite E in H. destruct H as (fb & Hfb & _ & _ & _ & _ & Hin & _).
  split; [done|]. apply Hin. injection Hfb as <-.
  eexists {| addr := 4198401; asm := "jmpq   *%rax"; insn_length := 2 |}.
  split_and!; [|done..]. vm_compute. right. left.
Defined.

Lemma continue_return_stops_witness :
  ContinueReturn.invoke nat S (λ _, true)
    (λ pc, asm (nth pc sample_listing {| addr := 0; asm := ""; insn_length := 0 |}))
    5%nat 2%nat
  = Some 4%nat.
Proof.
  apply (proj2 (continue_return_stops S (λ _, true)
                  (λ pc, asm (nth pc sample_listing {| addr := 0; asm := ""; insn_length := 0 |}))
                  2%nat 1%nat 5%nat)).
  - done.
  - intros j Hj. assert (j = 1%nat) as -> by lia. reflexivity.
  - reflexivity.
  - lia.
Defined.
